(** * Roughness penalty matrices of [skfda.misc.regularization]

    A shallow embedding of
    [skfda/misc/regularization/_linear_diff_op_regularization.py]:
    the dispatch between the basis-specific optimised routines and the
    numerical fallback, and the four optimised routines (constant,
    monomial, Fourier, B-spline).

    Arrays are lists (matrices are lists of rows).  The element type of
    the arrays is abstract: the routines are written over an interface
    [Scalar] of the arithmetic they use, with two instances, the
    rationals (exact arithmetic) and binary64 floating point numbers
    (what numpy computes with). *)

From Stdlib Require Import ZArith QArith Floats Lia.
From stdpp Require Import base list.

Local Open Scope Z_scope.

(** ** The arithmetic used by the routines *)

Class Scalar (F : Type) := {
  fzero : F;
  fone : F;
  fadd : F -> F -> F;
  fsub : F -> F -> F;
  fmul : F -> F -> F;
  fdiv : F -> F -> F;
  (** conversion of a (64-bit) integer to the element type *)
  fof_Z : Z -> F;
  (** [==] and [<] of the element type *)
  feqb : F -> F -> bool;
  fltb : F -> F -> bool;
  (** the constant [np.pi] *)
  fpi : F
}.

(** Exact arithmetic.  [np.pi] is the binary64 number nearest to pi,
    itself a rational. *)
#[export] Instance Q_Scalar : Scalar Q := {|
  fzero := 0%Q;
  fone := 1%Q;
  fadd := Qplus;
  fsub := Qminus;
  fmul := Qmult;
  fdiv := Qdiv;
  fof_Z := inject_Z;
  feqb := Qeq_bool;
  fltb := fun x y => negb (Qle_bool y x);
  fpi := Qmake 884279719003555 281474976710656
|}.

(** Conversion of an [int64] value to binary64. *)
Definition float_of_Z (z : Z) : float :=
  let m := Z.abs z in
  let a := if m =? 2 ^ 63 then 0x1p63%float
           else PrimFloat.of_uint63 (Uint63.of_Z m) in
  if z <? 0 then PrimFloat.opp a else a.

#[export] Instance float_Scalar : Scalar float := {|
  fzero := 0x0p0%float;
  fone := 0x1p0%float;
  fadd := PrimFloat.add;
  fsub := PrimFloat.sub;
  fmul := PrimFloat.mul;
  fdiv := PrimFloat.div;
  fof_Z := float_of_Z;
  feqb := PrimFloat.eqb;
  fltb := PrimFloat.ltb;
  fpi := 0x1.921fb54442d18p+1%float
|}.

(** ** Outcomes of a routine *)

Inductive exception := IndexError | ValueError | TypeError.

(** A routine returns the sentinel [NotImplemented], returns a matrix,
    or raises. *)
Inductive result (F : Type) :=
| NotImplemented
| Matrix (m : list (list F))
| Raises (e : exception).
Arguments NotImplemented {F}.
Arguments Matrix {F} m.
Arguments Raises {F} e.

(** ** Bases and regularizations *)

(** The basis classes.  [domain_range] is [basis.domain_range[0]], the
    range of the first dimension.  [OtherBasis] stands for any basis
    class for which no optimised routine is registered.

    [basis.knots] of a B-spline basis is a Python sequence, not an
    array: [knots] are the numbers in it, and [numpy_scalar] tells of
    each whether it is a numpy scalar (as the items of the default
    knots, which [np.linspace] makes) or a plain Python number (as the
    items of [knots=[0, 1, 2]]). *)
Inductive Basis (F : Type) :=
| Constant (domain_range : F * F)
| Monomial (n_basis : Z) (domain_range : F * F)
| Fourier (n_basis : Z) (domain_range : F * F) (period : F)
| BSpline (n_basis : Z) (domain_range : F * F) (order : Z) (knots : list F)
          (numpy_scalar : list bool)
| OtherBasis (n_basis : Z) (domain_range : F * F).
Arguments Constant {F} domain_range.
Arguments Monomial {F} n_basis domain_range.
Arguments Fourier {F} n_basis domain_range period.
Arguments BSpline {F} n_basis domain_range order knots numpy_scalar.
Arguments OtherBasis {F} n_basis domain_range.

Definition n_basis {F} (basis : Basis F) : Z :=
  match basis with
  | Constant _ => 1
  | Monomial n _ | Fourier n _ _ | BSpline n _ _ _ _ | OtherBasis n _ => n
  end.

Definition domain_range {F} (basis : Basis F) : F * F :=
  match basis with
  | Constant d | Monomial _ d | Fourier _ d _ | BSpline _ d _ _ _
  | OtherBasis _ d => d
  end.

(** [LinearDifferentialOperator]: [constant_weights] is the result of
    [constant_weights()] ([None] when the weights are not all
    constants), and [lfd_call basis x] is [linear_diff_op(basis)([x])[:, 0]],
    the values at [x] of the operator applied to each basis function. *)
Record LinearDifferentialOperator (F : Type) := {
  constant_weights : option (list F);
  lfd_call : Basis F -> F -> list F
}.
Arguments constant_weights {F} _.
Arguments lfd_call {F} _ _ _.

(** [LinearDifferentialOperatorRegularization] *)
Record Regularization (F : Type) := {
  linear_diff_op : LinearDifferentialOperator F
}.
Arguments linear_diff_op {F} _.

(** What the module calls and does not define: [scipy.integrate.quad_vec],
    [BSpline.evaluate], [PPoly.from_spline], and the contents of an
    array returned by [np.empty]. *)
Class Collaborators (F : Type) := {
  quad_vec : (F -> list F) -> F -> F -> list F;
  basis_evaluate : Basis F -> list F -> Z -> list (list F);
  from_spline : list F -> list F -> Z -> list (list F);
  uninitialized : nat -> nat -> F
}.

(** ** Arrays *)

Section Arrays.
Context {F : Type}.

Definition mget (M : list (list F)) (i j : nat) : option F :=
  M !! i ≫= (.!! j).

(** [M[i, j] = v]; the indices the routines use are in range (numpy
    raises out of range, here the array is left as it is). *)
Definition mset (M : list (list F)) (i j : nat) (v : F) : list (list F) :=
  alter (<[j := v]>) i M.

Definition tabulate (rows cols : nat) (f : nat -> nat -> F) : list (list F) :=
  map (fun i => map (f i) (seq 0 cols)) (seq 0 rows).

(** [np.triu_indices(n)] and [np.tril_indices(n)], as lists of pairs *)
Definition triu_indices (n : nat) : list (nat * nat) :=
  flat_map (fun i => map (pair i) (seq i (n - i))) (seq 0 n).

Definition tril_indices (n : nat) : list (nat * nat) :=
  flat_map (fun i => map (pair i) (seq 0 (S i))) (seq 0 n).

(** [M[(rows, cols)] = vals] *)
Definition scatter (M : list (list F)) (idx : list (nat * nat))
    (vals : list F) : list (list F) :=
  fold_left (fun M' '((i, j), v) => mset M' i j v) (combine idx vals) M.

Definition swap_indices (idx : list (nat * nat)) : list (nat * nat) :=
  map (fun '(i, j) => (j, i)) idx.

Definition ncols (M : list (list F)) : nat :=
  match M with [] => 0%nat | r :: _ => length r end.

Definition symmetric (M : list (list F)) : Prop :=
  forall i j, mget M i j = mget M j i.

(** [M] has [rows] rows of [cols] elements *)
Definition shape (M : list (list F)) (rows cols : nat) : Prop :=
  length M = rows /\ Forall (fun row => length row = cols) M.

(** One assignment [M[i, j] = v] of an index-array assignment *)
Definition store (M : list (list F)) (p : (nat * nat) * F) : list (list F) :=
  let '((i, j), v) := p in mset M i j v.

(** The value last paired with the index [k] in a list of assignments *)
Definition assoc_last (ps : list ((nat * nat) * F)) (k : nat * nat) : option F :=
  fold_left (fun acc '(k', v) => if decide (k' = k) then Some v else acc) ps None.
End Arrays.

Section Routines.
Context {F : Type} {SF : Scalar F} {CF : Collaborators F}.

Definition pow2 (x : F) : F := fmul x x.

Definition zeros (rows cols : nat) : list (list F) :=
  tabulate rows cols (fun _ _ => fzero).

Definition np_empty (rows cols : nat) : list (list F) :=
  tabulate rows cols uninitialized.

Definition at0 (l : list F) (i : nat) : F := default fzero (l !! i).

Definition np_sum (l : list F) : F := fold_left fadd l fzero.

(** *** The numerical fallback *)

Definition penalty_matrix_numerical (regularization : Regularization F)
    (basis : Basis F) : result F :=
  let n := Z.to_nat (n_basis basis) in
  let indices := triu_indices n in
  let cross_product x :=
    let res := lfd_call (linear_diff_op regularization) basis x in
    map (fun '(i, j) => fmul (at0 res i) (at0 res j)) indices in
  let '(a, b) := domain_range basis in
  let penalty_matrix := np_empty n n in
  let triang_vec := quad_vec cross_product a b in
  if negb (length triang_vec =? length indices)%nat then Raises ValueError
  else
    let penalty_matrix := scatter penalty_matrix indices triang_vec in
    let penalty_matrix :=
      scatter penalty_matrix (swap_indices indices) triang_vec in
    Matrix penalty_matrix.

(** *** Constant basis *)

Definition constant_penalty_matrix_optimized (basis : Basis F)
    (regularization : Regularization F) : result F :=
  match constant_weights (linear_diff_op regularization) with
  | None => NotImplemented
  | Some coefs =>
      match coefs with
      | [] => Raises IndexError
      | c0 :: _ =>
          let '(a, b) := domain_range basis in
          Matrix [[fmul (pow2 c0) (fsub b a)]]
      end
  end.

(** *** Fourier basis *)

(** [np.tile(signs, reps)] *)
Definition tile (l : list Z) (reps : nat) : list Z :=
  concat (replicate reps l).

(** A row of [np.vander(x, N, increasing=True)]: the powers are formed
    by accumulated multiplication. *)
Fixpoint vander_row (x acc : F) (N : nat) : list F :=
  match N with
  | O => []
  | S N' => acc :: vander_row x (fmul acc x) N'
  end.

(** [l[::2]] and [l[1::2]] *)
Fixpoint evens (l : list F) : list F :=
  match l with
  | [] => []
  | x :: l' => x :: match l' with [] => [] | _ :: l'' => evens l'' end
  end.

Definition odds (l : list F) : list F :=
  match l with [] => [] | _ :: l' => evens l' end.

(** [np.array((u, v)).T.ravel()] *)
Fixpoint interleave (u v : list F) : list F :=
  match u, v with
  | x :: u', y :: v' => x :: y :: interleave u' v'
  | _, _ => []
  end.

(** [np.diag(d)] *)
Definition diag (d : list F) : list (list F) :=
  tabulate (length d) (length d)
    (fun i j => if (i =? j)%nat then at0 d i else fzero).

(** [np.pad(M, pad_width=((1, 0), (1, 0)), mode='constant')] *)
Definition pad_top_left (M : list (list F)) : list (list F) :=
  replicate (S (ncols M)) fzero :: map (cons fzero) M.

Definition _fourier_penalty_matrix_optimized_orthonormal
    (n_basis : Z) (period : F) (weights : list F) : result F :=
  let len := length weights in
  let signs := [1; 1; -1; -1] in
  let signs_expanded := tile signs (len / 4 + 1) in
  let signs_odd := take len signs_expanded in
  let signs_even := take len (drop 1 signs_expanded) in
  let phases :=
    map (fun k => fdiv (fmul (fof_Z (Z.of_nat k * 2)) fpi) period)
        (seq 1 (Z.to_nat ((n_basis - 1) / 2))) in
  let coefs_no_sign :=
    map (fun x => zip_with fmul (vander_row x fone len) weights) phases in
  let apply_signs s :=
    map (fun row => zip_with (fun sg c => fmul (fof_Z sg) c) s row)
        coefs_no_sign in
  let coefs_odd := apply_signs signs_odd in
  let coefs_even := apply_signs signs_even in
  let odd_sin_coefs := map (fun row => np_sum (evens row)) coefs_odd in
  let odd_cos_coefs := map (fun row => np_sum (odds row)) coefs_odd in
  let even_cos_coefs := map (fun row => np_sum (evens row)) coefs_even in
  let even_sin_coefs := map (fun row => np_sum (odds row)) coefs_even in
  let main_diag_odd :=
    zip_with (fun s c => fadd (pow2 s) (pow2 c)) odd_sin_coefs odd_cos_coefs in
  let main_diag_even :=
    zip_with (fun s c => fadd (pow2 s) (pow2 c)) even_sin_coefs even_cos_coefs in
  let main_diag := interleave main_diag_odd main_diag_even in
  let penalty_matrix := pad_top_left (diag main_diag) in
  match weights with
  | [] => Raises IndexError
  | w0 :: _ => Matrix (mset penalty_matrix 0 0 (pow2 w0))
  end.

Definition fourier_penalty_matrix_optimized (n_basis : Z)
    (domain_range : F * F) (period : F)
    (regularization : Regularization F) : result F :=
  match constant_weights (linear_diff_op regularization) with
  | None => NotImplemented
  | Some weights =>
      if negb (feqb period (fsub (snd domain_range) (fst domain_range)))
      then NotImplemented
      else _fourier_penalty_matrix_optimized_orthonormal n_basis period weights
  end.

(** *** Monomial basis *)

(** Arithmetic of [int64] arrays wraps around. *)
Definition wrap64 (z : Z) : Z := (z + 2 ^ 63) mod 2 ^ 64 - 2 ^ 63.

(** [M.T] *)
Definition transpose (M : list (list F)) : list (list F) :=
  map (fun j => map (fun row => at0 row j) M) (seq 0 (ncols M)).

(** [M.resize(rows, cols)]: the elements are kept in row-major order,
    the array is cut or filled with zeros. *)
Definition np_resize (rows cols : nat) (M : list (list F)) : list (list F) :=
  let flat := take (rows * cols) (concat M ++ replicate (rows * cols) fzero) in
  map (fun i => take cols (drop (i * cols) flat)) (seq 0 rows).

(** [np.cumprod(rows, axis=0)] of an [int] array *)
Fixpoint cumprod_from (acc : list Z) (rows : list (list Z)) : list (list Z) :=
  match rows with
  | [] => []
  | r :: rs =>
      let acc' := zip_with (fun a b => wrap64 (a * b)) acc r in
      acc' :: cumprod_from acc' rs
  end.

Definition cumprod (rows : list (list Z)) : list (list Z) :=
  match rows with
  | [] => []
  | r :: rs => r :: cumprod_from r rs
  end.

(** An index of numpy: a negative index counts from the end. *)
Definition np_index (len : nat) (i : Z) : nat :=
  Z.to_nat (if i <? 0 then i + Z.of_nat len else i).

(** The body of [_monomial_evaluate_constant_linear_diff_op], for a
    non-empty list of weights. *)
Definition _monomial_evaluate_constant_linear_diff_op (n_basis : Z)
    (weights : list F) : list (list F) :=
  let n := Z.to_nat n_basis in
  let max_derivative := (length weights - 1)%nat in
  let seq_ := map Z.of_nat (seq 0 n) in
  let coef_mat :=
    map (fun t => map (fun k => k - Z.of_nat t) seq_) (seq 0 max_derivative) in
  let coefs := cumprod coef_mat in
  let coefs := replicate n fone :: map (map fof_Z) coefs in
  let coefs_t := transpose coefs in
  let weighted_coefs := map (fun row => zip_with fmul row weights) coefs_t in
  let weighted_coefs := transpose weighted_coefs in
  let weighted_coefs := np_resize n n weighted_coefs in
  let weighted_coefs := transpose weighted_coefs in
  let indexes := tril_indices n in
  let polynomials := zeros n n in
  fold_left
    (fun P '(i, j) =>
       mset P i (np_index n (Z.of_nat j - Z.of_nat i - 1))
            (at0 (default [] (weighted_coefs !! i)) j))
    indexes polynomials.

(** [np.fft.irfft(np.fft.rfft(a, N) * np.fft.rfft(b, N), N)].  The
    transforms are numpy's; their composition is taken by what it
    computes in exact arithmetic, the cyclic convolution of length [N]
    of [a] and [b] cut or filled with zeros to length [N].  In binary64
    the transforms round, and the array of numpy differs from this sum
    in the last digits: what is stated of the values of the monomial
    routine is stated for the rationals. *)
Definition rfft_mul_irfft (N : nat) (a b : list F) : list F :=
  let a' := take N (a ++ replicate N fzero) in
  let b' := take N (b ++ replicate N fzero) in
  map (fun k =>
         np_sum (map (fun s => fmul (at0 a' s) (at0 b' ((k + N - s) mod N)%nat))
                     (seq 0 N)))
      (seq 0 N).

(** [np.polyval(p, x)]: Horner's method *)
Definition polyval (p : list F) (x : F) : F :=
  fold_left (fun y pv => fadd (fmul y x) pv) p fzero.

(** [np.arange(n, 0, -1)] *)
Definition arange_down (n : nat) : list Z :=
  map (fun i => Z.of_nat (n - i)) (seq 0 n).

Definition monomial_penalty_matrix_optimized (n_basis : Z)
    (domain_range : F * F) (regularization : Regularization F) : result F :=
  match constant_weights (linear_diff_op regularization) with
  | None => NotImplemented
  | Some [] => Raises ValueError
  | Some weights =>
      let n := Z.to_nat n_basis in
      let polynomials :=
        _monomial_evaluate_constant_linear_diff_op n_basis weights in
      let length_with_padding := (n * 2 - 1)%nat in
      let indices := triu_indices n in
      let integrand :=
        map (fun '(i, j) =>
               rfft_mul_irfft length_with_padding
                 (default [] (polynomials !! i))
                 (default [] (polynomials !! j)))
            indices in
      let integration_domain := domain_range in
      let denom := arange_down length_with_padding in
      let integrand :=
        map (fun row => zip_with (fun c d => fdiv c (fof_Z d)) row denom)
            integrand in
      let integrand := map (fun row => row ++ [fzero]) integrand in
      let x_right := map (fun p => polyval p (snd integration_domain)) integrand in
      let x_left := map (fun p => polyval p (fst integration_domain)) integrand in
      let integral := zip_with fsub x_right x_left in
      let penalty_matrix := np_empty n n in
      let penalty_matrix := scatter penalty_matrix indices integral in
      let penalty_matrix :=
        scatter penalty_matrix (swap_indices indices) integral in
      Matrix penalty_matrix
  end.

(** *** B-spline basis *)

(** [np.flatnonzero(a)] *)
Definition flatnonzero (a : list F) : list Z :=
  map (fun '(i, _) => Z.of_nat i)
      (filter (fun '(_, x) => negb (feqb x fzero) = true) (imap pair a)).

(** [np.diff(a)] *)
Definition np_diff (a : list F) : list F :=
  zip_with (fun lo hi => fsub hi lo) a (drop 1 a).

(** [A @ B] *)
Definition matmul (A B : list (list F)) : list (list F) :=
  map (fun row =>
         map (fun j => np_sum (zip_with fmul row (map (fun r => at0 r j) B)))
             (seq 0 (ncols B)))
      A.

(** [np.trim_zeros(p, 'f')] *)
Fixpoint trim_zeros (p : list F) : list F :=
  match p with
  | [] => []
  | x :: p' => if feqb x fzero then trim_zeros p' else p
  end.

(** [np.polyder(p, m)] *)
Fixpoint polyder (p : list F) (m : nat) : list F :=
  match m with
  | O => p
  | S m' =>
      let n := (length p - 1)%nat in
      let y := zip_with (fun c e => fmul c (fof_Z e)) (take n p) (arange_down n) in
      polyder y m'
  end.

(** The coefficients of [np.poly1d(p)] *)
Definition poly1d (p : list F) : list F :=
  match trim_zeros p with
  | [] => [fzero]
  | q => q
  end.

(** [np.convolve(a, b)] *)
Definition convolve (a b : list F) : list F :=
  map (fun k =>
         np_sum (map (fun s => fmul (at0 a s) (at0 b (k - s)))
                     (filter (fun s => (k - s < length b)%nat)
                             (seq 0 (min (S k) (length a))))))
      (seq 0 (length a + length b - 1)).

(** [np.polymul(a1, a2)] *)
Definition polymul (a1 a2 : list F) : list F :=
  convolve (poly1d a1) (poly1d a2).

(** [np.polyint(p)] *)
Definition polyint (p : list F) : list F :=
  zip_with (fun c d => fdiv c (fof_Z d)) p (arange_down (length p)) ++ [fzero].

(** [M[:, j]] *)
Definition column (M : list (list F)) (j : nat) : list F :=
  map (fun row => at0 row j) M.

(** Modelled from the spec: [BSpline._evaluation_knots] is defined in
    the basis module; it returns the knots with the boundary knots
    repeated ([order - 1] more of each). *)
Definition _evaluation_knots (order : Z) (knots : list F) : list F :=
  let m := Z.to_nat (order - 1) in
  match knots with
  | [] => []
  | first :: _ =>
      replicate m first ++ knots ++ replicate m (List.last knots first)
  end.

(** A [for] loop whose body may raise ([None]): the first exception
    ends the loop. *)
Fixpoint for_loop {A S : Type} (body : S -> A -> option S) (l : list A)
    (s : S) : option S :=
  match l with
  | [] => Some s
  | x :: l' =>
      match body s x with
      | Some s' => for_loop body l' s'
      | None => None
      end
  end.

(** [np.diff(polyval(integral, knots[interval: interval + 2]
                                - knots[interval]))[0]],
    where [knots] is [basis.knots], a Python sequence.  A slice of a
    sequence has no subtraction of its own, so Python leaves it to
    the right operand [knots[interval]]: a numpy scalar turns the
    slice into an array and subtracts from each element; a plain
    Python number cannot be subtracted from a sequence, and
    [TypeError] is raised ([None]). *)
Definition definite_integral (integral : list F) (knots : list F)
    (numpy_scalar : list bool) (interval : nat) : option F :=
  if default false (numpy_scalar !! interval) then
    let k0 := at0 knots interval in
    let k1 := at0 knots (S interval) in
    Some (fsub (polyval integral (fsub k1 k0))
               (polyval integral (fsub k0 k0)))
  else None.

Section ExactSplineLoop.
Variable n : nat.
Variable derivative_degree : nat.
Variable knots : list F.
Variable numpy_scalar : list bool.
Variable ppoly_lst : list (list (list F)).

Definition local_poly (i interval : nat) : list F :=
  trim_zeros (column (default [] (ppoly_lst !! i)) interval).

Definition loop_j (interval i : nat) (poly_i : list F)
    (penalty_matrix : list (list F)) (j : nat) : option (list (list F)) :=
  let poly_j := local_poly j interval in
  if (length poly_j <=? derivative_degree)%nat then Some penalty_matrix
  else
    let integral :=
      polyint (polymul (polyder poly_i derivative_degree)
                       (polyder poly_j derivative_degree)) in
    match definite_integral integral knots numpy_scalar interval with
    | None => None
    | Some v =>
        let old := default fzero (mget penalty_matrix i j) in
        let penalty_matrix := mset penalty_matrix i j (fadd old v) in
        Some (mset penalty_matrix j i
                   (default fzero (mget penalty_matrix i j)))
    end.

Definition loop_i (interval : nat) (penalty_matrix : list (list F))
    (i : nat) : option (list (list F)) :=
  let poly_i := local_poly i interval in
  if (length poly_i <=? derivative_degree)%nat then Some penalty_matrix
  else
    let derivative := polyder poly_i derivative_degree in
    let square := polymul derivative derivative in
    let integral := polyint square in
    match definite_integral integral knots numpy_scalar interval with
    | None => None
    | Some v =>
        let old := default fzero (mget penalty_matrix i i) in
        let penalty_matrix := mset penalty_matrix i i (fadd old v) in
        for_loop (loop_j interval i poly_i) (seq (S i) (n - S i))
                 penalty_matrix
    end.

Definition loop_interval (penalty_matrix : list (list F))
    (interval : nat) : option (list (list F)) :=
  for_loop (loop_i interval) (seq 0 n) penalty_matrix.
End ExactSplineLoop.

(** Which branch of [bspline_penalty_matrix_optimized] is taken. *)
Inductive bspline_path :=
| NonConstant | ZeroMatrix | SeveralOrders | MaximalDerivative
| ZeroLengthInterval | PiecewisePolynomial.

Definition surviving_orders (order : Z) (coefs : list F) : list Z :=
  filter (fun d => d < order) (flatnonzero coefs).

Definition bspline_path_of (order : Z) (knots : list F)
    (regularization : Regularization F) : bspline_path :=
  match constant_weights (linear_diff_op regularization) with
  | None => NonConstant
  | Some coefs =>
      match surviving_orders order coefs with
      | [] => ZeroMatrix
      | [derivative_degree] =>
          if derivative_degree =? order - 1 then MaximalDerivative
          else if existsb (fun d => feqb d fzero) (np_diff knots)
               then ZeroLengthInterval
               else PiecewisePolynomial
      | _ => SeveralOrders
      end
  end.

(** The branch [derivative_degree == basis.order - 1]:
    [constants.T @ np.diag(knots_intervals) @ constants].  A sum of
    products is accumulated in the order of the index. *)
Definition bspline_maximal_derivative (basis : Basis F) (knots : list F)
    (derivative_degree : Z) : list (list F) :=
  let mid_inter :=
    zip_with (fun hi lo => fdiv (fadd hi lo) (fof_Z 2))
             (drop 1 knots) (take (length knots - 1) knots) in
  let constants := transpose (basis_evaluate basis mid_inter derivative_degree) in
  let knots_intervals := np_diff knots in
  matmul (matmul (transpose constants) (diag knots_intervals)) constants.

(** The last branch, the loops over the intervals and the pairs of
    basis functions.  The intervals of positive length of the
    evaluation knots are intervals of [basis.knots] (the repeated
    boundary knots add none), so [interval] and [interval + 1] are
    indices of [basis.knots]; a B-spline basis has
    [n_basis = len(knots) + order - 2], so [c[i]] exists.  [None]: a
    definite integral raised [TypeError]. *)
Definition bspline_piecewise_polynomial (n_basis order : Z)
    (basis_knots : list F) (numpy_scalar : list bool)
    (derivative_degree : Z) : option (list (list F)) :=
  let n := Z.to_nat n_basis in
  let knots := _evaluation_knots order basis_knots in
  let c := replicate (length knots) fzero in
  let no_0_intervals :=
    map fst (filter (fun '(_, d) => fltb fzero d = true)
                    (imap pair (np_diff knots))) in
  let ppoly_lst :=
    map (fun i =>
           let pp := from_spline knots (<[i := fone]> c) (order - 1) in
           map (fun row => map (at0 row) no_0_intervals) pp)
        (seq 0 n) in
  let penalty_matrix := zeros n n in
  for_loop
    (loop_interval n (Z.to_nat derivative_degree) basis_knots numpy_scalar
                   ppoly_lst)
    (seq 0 (length no_0_intervals)) penalty_matrix.

Definition bspline_penalty_matrix_optimized (n_basis : Z)
    (domain_range : F * F) (order : Z) (knots : list F)
    (numpy_scalar : list bool)
    (regularization : Regularization F) : result F :=
  match constant_weights (linear_diff_op regularization) with
  | None => NotImplemented
  | Some coefs =>
      let nonzero := flatnonzero coefs in
      let nonzero := filter (fun d => d < order) nonzero in
      match nonzero with
      | [] => Matrix (zeros (Z.to_nat n_basis) (Z.to_nat n_basis))
      | [derivative_degree] =>
          if derivative_degree =? order - 1 then
            Matrix (bspline_maximal_derivative
                      (BSpline n_basis domain_range order knots numpy_scalar)
                      knots derivative_degree)
          else if existsb (fun d => feqb d fzero) (np_diff knots) then
            NotImplemented
          else
            match bspline_piecewise_polynomial n_basis order knots
                    numpy_scalar derivative_degree with
            | Some penalty_matrix => Matrix penalty_matrix
            | None => Raises TypeError
            end
      | _ => NotImplemented
      end
  end.

(** *** Dispatch *)

(** The single-dispatch function [penalty_matrix_optimized] with the
    four registered routines; the default returns [NotImplemented]. *)
Definition penalty_matrix_optimized (basis : Basis F)
    (regularization : Regularization F) : result F :=
  match basis with
  | Constant _ => constant_penalty_matrix_optimized basis regularization
  | Monomial n d => monomial_penalty_matrix_optimized n d regularization
  | Fourier n d p => fourier_penalty_matrix_optimized n d p regularization
  | BSpline n d o k t =>
      bspline_penalty_matrix_optimized n d o k t regularization
  | OtherBasis _ _ => NotImplemented
  end.

Definition penalty_matrix (regularization : Regularization F)
    (basis : Basis F) : result F :=
  match penalty_matrix_optimized basis regularization with
  | NotImplemented => penalty_matrix_numerical regularization basis
  | matrix => matrix
  end.

End Routines.

(** ** Sample inputs *)

(** Collaborators over the rationals, with a one-point rule in the
    place of [quad_vec], and arrays of [np.empty] that are not symmetric. *)
Definition sample_collaborators : Collaborators Q := {|
  quad_vec := fun f a b => map (fun y => Qmult y (Qminus b a)) (f a);
  basis_evaluate := fun _ _ _ => [];
  from_spline := fun _ _ _ => [];
  uninitialized := fun i j => inject_Z (Z.of_nat (10 * i + j + 7))
|}.

(** A regularization with the given result of [constant_weights()]. *)
Definition sample_regularization {F} (weights : option (list F))
    : Regularization F := {|
  linear_diff_op := {|
    constant_weights := weights;
    lfd_call := fun basis x => replicate (Z.to_nat (n_basis basis)) x
  |}
|}.

(** The quadratic B-spline basis (order 3) on the knots [[0, 1, 3]]:
    the second derivatives of its four functions on the two intervals. *)
Definition quadratic_collaborators : Collaborators Q := {|
  quad_vec := fun f a b => map (fun y => Qmult y (Qminus b a)) (f a);
  basis_evaluate := fun _ _ _ =>
    [[2%Q; 0%Q]; [Qmake (-8) 3; Qmake 1 3];
     [Qmake 2 3; Qmake (-5) 6]; [0%Q; Qmake 1 2]];
  from_spline := fun _ _ _ => [];
  uninitialized := fun _ _ => 0%Q
|}.

(** The cubic B-spline basis (order 4) on the knots [[0, 5]]: its third
    derivatives are constant, [-6/125], [18/125], [-18/125] and [6/125],
    here as the binary64 numbers nearest to them. *)
Definition cubic_collaborators : Collaborators float := {|
  quad_vec := fun f a b => f a;
  basis_evaluate := fun _ _ _ =>
    [[(-0x1.89374bc6a7efap-5)%float]; [0x1.26e978d4fdf3bp-3%float];
     [(-0x1.26e978d4fdf3bp-3)%float]; [0x1.89374bc6a7efap-5%float]];
  from_spline := fun _ _ _ => [];
  uninitialized := fun _ _ => 0x0p0%float
|}.

Definition cubic_basis : Basis float :=
  BSpline 4 (0x0p0%float, 0x1.4p2%float) 4 [0x0p0%float; 0x1.4p2%float]
          [false; false].

Definition third_derivative : Regularization float :=
  sample_regularization
    (Some [0x0p0%float; 0x0p0%float; 0x0p0%float; 0x1p0%float]).

(** The quadratic B-spline basis (order 3) on the knots [[0, 1, 2]],
    with the evaluation knots [[0, 0, 0, 1, 2, 2, 2]]: the pieces of
    its four functions, as [PPoly.from_spline] gives them, one column
    for each interval of the evaluation knots and the coefficients
    from the highest power, in the coordinate [x - a] for the interval
    that starts at [a].  On [[0, 1]] the functions are [(1 - x)^2],
    [2 x - 3/2 x^2], [1/2 x^2] and [0]; on [[1, 2]], with [u = x - 1],
    they are [0], [1/2 (1 - u)^2], [1/2 + u - 3/2 u^2] and [u^2].  (The
    routine does not read the columns of the intervals of length
    zero.) *)
Definition uniform_quadratic_pieces : list (list (list Q)) :=
  [ [[1; 1; 1; 0; 0; 0]; [-2; -2; -2; 0; 0; 0]; [1; 1; 1; 0; 0; 0]];
    [[Qmake (-3) 2; Qmake (-3) 2; Qmake (-3) 2;
      Qmake 1 2; Qmake 1 2; Qmake 1 2];
     [2; 2; 2; -1; 0; 0];
     [0; 0; 0; Qmake 1 2; 0; 0]];
    [[Qmake 1 2; Qmake 1 2; Qmake 1 2;
      Qmake (-3) 2; Qmake (-3) 2; Qmake (-3) 2];
     [0; 0; 0; 1; -2; -2];
     [0; 0; 0; Qmake 1 2; 0; 0]];
    [[0; 0; 0; 1; 1; 1]; [0; 0; 0; 0; 2; 2]; [0; 0; 0; 0; 1; 1]] ]%Q.

(** [PPoly.from_spline((knots, c, 2))] for these knots: the spline with
    the coefficients [c] is the sum of the basis functions weighted by
    [c]. *)
Definition uniform_quadratic_collaborators : Collaborators Q := {|
  quad_vec := fun f a b => map (fun y => Qmult y (Qminus b a)) (f a);
  basis_evaluate := fun _ _ _ => [];
  from_spline := fun _ c _ =>
    map (fun r =>
           map (fun j =>
                  fold_left Qplus
                    (imap (fun i piece =>
                             Qmult (default 0%Q (c !! i))
                                   (default 0%Q (piece !! r ≫= (.!! j))))
                          uniform_quadratic_pieces)
                    0%Q)
               (seq 0 6))
        (seq 0 3);
  uninitialized := fun _ _ => 0%Q
|}.

(** [BSpline(knots=[0, 1, 2], order=3)]: the knots are plain Python
    numbers. *)
Definition python_knots_basis : Basis Q :=
  BSpline 4 (0%Q, 2%Q) 3 [0%Q; 1%Q; 2%Q] [false; false; false].

(** The same basis with knots that are numpy scalars, as
    [np.linspace(0, 2, 3)] makes them. *)
Definition numpy_knots_basis : Basis Q :=
  BSpline 4 (0%Q, 2%Q) 3 [0%Q; 1%Q; 2%Q] [true; true; true].

(** The first derivative: [LinearDifferentialOperator(weights=[0, 1])] *)
Definition first_derivative : Regularization Q :=
  sample_regularization (Some [0%Q; 1%Q]).

(** ** Descriptions used in the statements *)

Section Descriptions.
Context {F : Type} {SF : Scalar F}.

(** The indices, counted from [k], of the nonzero elements of [a]:
    [flatnonzero a] is [flatnonzero_from 0 a]. *)
Definition flatnonzero_from (k : nat) (a : list F) : list Z :=
  map (fun '(i, _) => Z.of_nat i)
      (filter (fun '(_, x) => negb (feqb x fzero) = true)
              (imap (fun i x => ((k + i)%nat, x)) a)).

(** [np.where(np.diff(knots) > 0)[0]] for the evaluation knots of the
    basis: the intervals over which the last branch of
    [bspline_penalty_matrix_optimized] loops are counted from 0 to the
    length of this array. *)
Definition no_0_intervals (order : Z) (basis_knots : list F) : list nat :=
  map fst (filter (fun '(_, d) => fltb fzero d = true)
                  (imap pair (np_diff (_evaluation_knots order basis_knots)))).

(** The definite integral over the domain of the product of two rows
    of [polynomials], as [monomial_penalty_matrix_optimized] computes
    it for one pair of rows: product by the transforms, division by
    [denom], a zero appended, and the difference of the values at the
    two ends. *)
Definition monomial_integral (n : nat) (integration_domain : F * F)
    (polynomials : list (list F)) (i j : nat) : F :=
  let length_with_padding := (n * 2 - 1)%nat in
  let product :=
    rfft_mul_irfft length_with_padding
      (default [] (polynomials !! i)) (default [] (polynomials !! j)) in
  let integrand :=
    zip_with (fun c d => fdiv c (fof_Z d)) product
             (arange_down length_with_padding) ++ [fzero] in
  fsub (polyval integrand (snd integration_domain))
       (polyval integrand (fst integration_domain)).

(** The product [k (k - 1) ... (k - d + 1)] as [np.cumprod] forms it
    in an [int64] array, one factor at a time. *)
Fixpoint falling_wrapped (k : Z) (d : nat) : Z :=
  match d with
  | O => 1
  | S d' =>
      match d' with
      | O => k
      | S _ => wrap64 (falling_wrapped k d' * (k - Z.of_nat d'))
      end
  end.

(** The product [k (k - 1) ... (k - d + 1)] in the integers. *)
Fixpoint falling (k : Z) (d : nat) : Z :=
  match d with
  | O => 1
  | S d' => falling k d' * (k - Z.of_nat d')
  end.

(** The coefficient that the derivative of order [d] of [x^k]
    contributes to the operator applied to [x^k]: the weight of order
    [d] times [k (k - 1) ... (k - d + 1)], and zero when the operator
    has no weight of order [d]. *)
Definition monomial_coefficient (weights : list F) (k d : nat) : F :=
  match weights !! d with
  | Some w =>
      fmul (match d with
            | O => fone
            | S _ => fof_Z (falling_wrapped (Z.of_nat k) d)
            end) w
  | None => fzero
  end.
End Descriptions.

(** The products of [np.cumprod] for the monomial [x^k] are the products
    in the integers, up to the first one that is zero. *)
Definition products_agree (k : nat) : bool :=
  forallb (fun d => falling_wrapped (Z.of_nat k) d =? falling (Z.of_nat k) d)
          (seq 0 (k + 2))
  && (falling (Z.of_nat k) (S k) =? 0).

(** A row of [coefs_no_sign] with its signs: [signs * coefs_no_sign]. *)
Definition signed (s : list Z) (c : list Q) : list Q :=
  zip_with (fun sg c => fmul (fof_Z sg) c) s c.

(** ** The integral of a product of polynomials *)

(** [x ^ e] *)
Fixpoint power (x : Q) (e : nat) : Q :=
  match e with
  | O => 1%Q
  | S e' => (x * power x e')%Q
  end.

(** The sum of a list of rationals *)
Definition Qsum (l : list Q) : Q := fold_right Qplus 0%Q l.

(** The integral over [[a, b]] of the product of the polynomials with
    the coefficients [p] and [q], highest power first, term by term:
    the terms [p_s x^d] and [q_t x^e] have the product
    [p_s q_t x^(d + e)], of integral
    [p_s q_t (b^(d + e + 1) - a^(d + e + 1)) / (d + e + 1)]. *)
Definition integral_of_product (p q : list Q) (a b : Q) : Q :=
  Qsum (map (fun s =>
    Qsum (map (fun t =>
      let m := (length p - 1 - s + (length q - 1 - t))%nat in
      (default 0 (p !! s) * default 0 (q !! t)
       * ((power b (S m) - power a (S m)) / inject_Z (Z.of_nat (S m))))%Q)
      (seq 0 (length q))))
    (seq 0 (length p))).

(** * Facts about arrays *)

Section ArrayFacts.
Context {F : Type}.
Implicit Types (M : list (list F)) (v : F).
Local Open Scope nat_scope.

Lemma map_fmap {A B} (f : A -> B) (l : list A) : map f l = f <$> l.
Proof. reflexivity. Qed.

Lemma mget_mset M i j v i' j' :
  mget (mset M i j v) i' j' =
    if decide (i = i' ∧ j = j') then (fun _ => v) <$> mget M i j
    else mget M i' j'.
Proof.
  unfold mget, mset. destruct (decide (i = i')) as [<-|Hi].
  - rewrite list_lookup_alter_eq. destruct (M !! i) as [row|]; simpl.
    + destruct (decide (j = j')) as [<-|Hj].
      * rewrite decide_True by done.
        destruct (decide (j < length row)) as [Hlt|Hge].
        -- rewrite list_lookup_insert_eq by done.
           destruct (lookup_lt_is_Some_2 row j Hlt) as [x ->]. done.
        -- rewrite list_insert_ge by lia.
           rewrite (lookup_ge_None_2 row j) by lia. done.
      * rewrite decide_False by tauto.
        by rewrite list_lookup_insert_ne.
    + by case_decide.
  - rewrite list_lookup_alter_ne by done.
    rewrite decide_False by tauto. done.
Qed.

Lemma mget_tabulate rows cols (f : nat -> nat -> F) i j :
  mget (tabulate rows cols f) i j =
    if decide (i < rows ∧ j < cols) then Some (f i j) else None.
Proof.
  unfold mget, tabulate. rewrite !map_fmap, list_lookup_fmap.
  destruct (decide (i < rows)) as [Hi|Hi].
  - rewrite lookup_seq_lt by done. simpl.
    rewrite map_fmap, list_lookup_fmap.
    destruct (decide (j < cols)) as [Hj|Hj].
    + rewrite lookup_seq_lt by done. rewrite decide_True by done. done.
    + rewrite lookup_seq_ge by lia. rewrite decide_False by tauto. done.
  - rewrite lookup_seq_ge by lia. rewrite decide_False by tauto. done.
Qed.

Lemma length_tabulate rows cols (f : nat -> nat -> F) :
  length (tabulate rows cols f) = rows.
Proof. unfold tabulate. by rewrite length_map, length_seq. Qed.

Lemma length_mset M i j v : length (mset M i j v) = length M.
Proof. apply length_alter. Qed.

(** *** Assignments that keep a matrix symmetric *)

Lemma symmetric_mset_diag M i v : symmetric M -> symmetric (mset M i i v).
Proof.
  intros HM a b. rewrite !mget_mset.
  destruct (decide (i = a ∧ i = b)) as [[<- <-]|Hab].
  - rewrite decide_True by done. done.
  - rewrite decide_False by tauto. apply HM.
Qed.

(** [M[i, j] = v; M[j, i] = M[i, j]] *)
Lemma symmetric_mset_mirror M i j v (d : F) :
  symmetric M ->
  let M' := mset M i j v in
  symmetric (mset M' j i (default d (mget M' i j))).
Proof.
  intros HM M' a b. rewrite !mget_mset. subst M'. rewrite !mget_mset.
  destruct (decide (i = j)) as [<-|Hij].
  { repeat case_decide; try tauto; try apply HM.
    all: destruct (mget M i i); done. }
  rewrite (decide_True (P := i = i ∧ j = j)) by done.
  destruct (decide (j = a ∧ i = b)) as [[<- <-]|H1].
  - rewrite (decide_False (P := i = j ∧ j = i)) by tauto.
    rewrite (decide_False (P := j = i ∧ i = j)) by (intros [? ?]; done).
    rewrite decide_True by done. rewrite (HM j i).
    destruct (mget M i j); done.
  - destruct (decide (j = b ∧ i = a)) as [[<- <-]|H2].
    + rewrite (decide_False (P := i = j ∧ j = i)) by tauto.
      rewrite decide_True by done. rewrite (HM j i).
      destruct (mget M i j); done.
    + repeat case_decide; try tauto; apply HM.
Qed.

(** *** Assignment through index arrays *)

Lemma scatter_fold M idx vals :
  scatter M idx vals = fold_left store (combine idx vals) M.
Proof.
  unfold scatter. f_equal.
Qed.

Lemma mget_fold_store ps M i j :
  mget (fold_left store ps M) i j =
    match assoc_last ps (i, j) with
    | Some v => (fun _ => v) <$> mget M i j
    | None => mget M i j
    end.
Proof.
  induction ps as [|[[a b] v] ps IH] using rev_ind; [done|].
  unfold assoc_last. rewrite !fold_left_app. simpl.
  rewrite mget_mset.
  destruct (decide (a = i ∧ b = j)) as [[-> ->]|Hne].
  - rewrite decide_True by done. rewrite IH.
    destruct (assoc_last ps (i, j)); [|done].
    destruct (mget M i j); done.
  - rewrite decide_False by (intros [= -> ->]; tauto). apply IH.
Qed.

Lemma assoc_last_None (ps : list ((nat * nat) * F)) k :
  ~ In k (map fst ps) -> assoc_last ps k = None.
Proof.
  induction ps as [|[k' v] ps IH] using rev_ind; [done|].
  unfold assoc_last. rewrite map_app, in_app_iff, fold_left_app. simpl.
  intros Hn. rewrite decide_False by tauto. apply IH. tauto.
Qed.

Lemma assoc_last_Some (ps : list ((nat * nat) * F)) k :
  In k (map fst ps) -> is_Some (assoc_last ps k).
Proof.
  induction ps as [|[k' v] ps IH] using rev_ind; [done|].
  unfold assoc_last. rewrite map_app, in_app_iff, fold_left_app. simpl.
  intros Hin. destruct (decide (k' = k)); [done|].
  apply IH. tauto.
Qed.

Lemma assoc_last_swap idx (vals : list F) i j :
  assoc_last (combine (swap_indices idx) vals) (i, j) =
  assoc_last (combine idx vals) (j, i).
Proof.
  unfold assoc_last.
  generalize (@None F). revert vals.
  induction idx as [|[a b] idx IH]; intros [|v vals] acc; simpl; try done.
  rewrite <- IH. f_equal.
  destruct (decide ((b, a) = (i, j))), (decide ((a, b) = (j, i)));
    congruence.
Qed.

Lemma map_fst_combine (idx : list (nat * nat)) (vals : list F) :
  length vals = length idx -> map fst (combine idx vals) = idx.
Proof.
  revert vals. induction idx as [|k idx IH]; intros [|v vals]; simpl;
    try done.
  intros [= Hlen]. by rewrite IH.
Qed.

Lemma in_triu_indices n i j :
  In (i, j) (triu_indices n) <-> i <= j /\ j < n.
Proof.
  unfold triu_indices. rewrite in_flat_map. split.
  - intros (a & Ha & Hin). apply in_seq in Ha.
    apply in_map_iff in Hin as (b & [= <- <-] & Hb). apply in_seq in Hb. lia.
  - intros [Hij Hj]. exists i. split; [apply in_seq; lia|].
    apply in_map_iff. exists j. split; [done|]. apply in_seq. lia.
Qed.

(** The upper triangle is assigned, then the lower triangle from the
    same values: the matrix is symmetric, whatever it held before. *)
Lemma symmetric_scatter_mirror n (g : nat -> nat -> F) vals :
  length vals = length (triu_indices n) ->
  symmetric
    (scatter (scatter (tabulate n n g) (triu_indices n) vals)
             (swap_indices (triu_indices n)) vals).
Proof.
  intros Hlen.
  assert (Hup : forall i j,
    assoc_last (combine (triu_indices n) vals) (i, j) = None <->
    ~ (i <= j /\ j < n)).
  { intros i j. rewrite <- in_triu_indices.
    rewrite <- (map_fst_combine (triu_indices n) vals Hlen) at 2.
    split.
    - intros Hnone Hin. apply assoc_last_Some in Hin as [v Hv]. congruence.
    - apply assoc_last_None. }
  intros i j. rewrite !scatter_fold, !mget_fold_store, !assoc_last_swap.
  rewrite !mget_tabulate.
  destruct (decide (i = j)) as [->|Hij]; [done|].
  destruct (assoc_last (combine (triu_indices n) vals) (i, j)) as [v1|] eqn:E1;
  destruct (assoc_last (combine (triu_indices n) vals) (j, i)) as [v2|] eqn:E2.
  - assert (~ (assoc_last (combine (triu_indices n) vals) (i, j) = None))
      as H1 by congruence.
    assert (~ (assoc_last (combine (triu_indices n) vals) (j, i) = None))
      as H2 by congruence.
    rewrite Hup in H1, H2. lia.
  - repeat case_decide; try done; lia.
  - repeat case_decide; try done; lia.
  - apply Hup in E1, E2. repeat case_decide; try done; lia.
Qed.
End ArrayFacts.

(** * Facts about the routines *)

Section RoutineFacts.
Context {F : Type} {SF : Scalar F}.
Implicit Types (M : list (list F)) (d : list F).
Local Open Scope nat_scope.

Lemma ncols_tabulate rows cols (f : nat -> nat -> F) :
  ncols (tabulate rows cols f) = match rows with 0 => 0 | S _ => cols end.
Proof.
  unfold tabulate. destruct rows; [done|]. simpl.
  by rewrite length_map, length_seq.
Qed.

Lemma shape_tabulate rows cols (f : nat -> nat -> F) :
  shape (tabulate rows cols f) rows cols.
Proof.
  split; [apply length_tabulate|]. unfold tabulate.
  apply List.Forall_forall. intros row Hin.
  apply in_map_iff in Hin as (i & <- & _). by rewrite length_map, length_seq.
Qed.

Lemma shape_mset M rows cols i j (v : F) :
  shape M rows cols -> shape (mset M i j v) rows cols.
Proof.
  intros [Hlen Hrows]. split; [by rewrite length_mset|].
  unfold mset. apply Forall_lookup. intros k row.
  rewrite list_lookup_alter. rewrite Forall_lookup in Hrows.
  case_decide; subst.
  - destruct (M !! k) as [r|] eqn:E; simpl; [|done].
    intros [= <-]. rewrite length_insert. eauto.
  - eauto.
Qed.

Lemma shape_pad_top_left M n :
  shape M n n -> shape (pad_top_left M) (S n) (S n).
Proof.
  intros [Hlen Hrows]. unfold pad_top_left. split.
  - simpl. by rewrite length_map, Hlen.
  - assert (ncols M = n) as ->.
    { destruct M as [|r M]; simpl in *; [done|].
      by apply Forall_cons_1 in Hrows as [-> _]. }
    apply Forall_cons. split; [by rewrite length_replicate|].
    rewrite map_fmap. apply Forall_fmap.
    eapply Forall_impl; [exact Hrows|]. simpl. intros r ->. done.
Qed.

Lemma mget_shape M rows cols i j :
  shape M rows cols -> i < rows -> j < cols -> is_Some (mget M i j).
Proof.
  intros [Hlen Hrows] Hi Hj. unfold mget.
  destruct (lookup_lt_is_Some_2 M i) as [row Hrow]; [lia|].
  rewrite Hrow. simpl. apply lookup_lt_is_Some_2.
  rewrite Forall_lookup in Hrows. by rewrite (Hrows _ _ Hrow).
Qed.

Lemma mget_diag d i j :
  mget (diag d) i j =
    if decide (i < length d ∧ j < length d)
    then Some (if i =? j then at0 d i else fzero) else None.
Proof. unfold diag. apply mget_tabulate. Qed.

Lemma mget_pad_top_left M i j :
  mget (pad_top_left M) i j =
    match i, j with
    | 0, _ => if decide (j < S (ncols M)) then Some fzero else None
    | S i', 0 => (fun _ => fzero) <$> M !! i'
    | S i', S j' => mget M i' j'
    end.
Proof.
  unfold mget, pad_top_left. destruct i as [|i'].
  - change (replicate (S (ncols M)) fzero !! j =
            if decide (j < S (ncols M)) then Some fzero else None).
    case_decide.
    + by apply lookup_replicate_2.
    + apply lookup_replicate_None. lia.
  - simpl. rewrite map_fmap, list_lookup_fmap.
    destruct (M !! i') as [row|]; simpl; [|by destruct j].
    by destruct j.
Qed.

Lemma symmetric_tabulate n (f : nat -> nat -> F) :
  (forall i j, f i j = f j i) -> symmetric (tabulate n n f).
Proof.
  intros Hf i j. rewrite !mget_tabulate, (Hf i j).
  repeat case_decide; try done; lia.
Qed.

Lemma symmetric_zeros n : symmetric (zeros n n).
Proof. by apply symmetric_tabulate. Qed.

Lemma symmetric_pad_diag d : symmetric (pad_top_left (diag d)).
Proof.
  intros i j. rewrite !mget_pad_top_left.
  assert (Hn : ncols (diag d) = length d).
  { unfold diag. rewrite ncols_tabulate. by destruct (length d). }
  assert (Hrow : forall k,
    (fun _ => fzero) <$> diag d !! k =
    if decide (k < S (length d)) then
      if decide (k < length d) then Some fzero else None
    else None).
  { intros k. destruct (decide (k < length d)) as [Hk|Hk].
    - destruct (lookup_lt_is_Some_2 (diag d) k) as [r ->].
      + unfold diag. by rewrite length_tabulate.
      + rewrite decide_True by lia. done.
    - rewrite (lookup_ge_None_2 (diag d) k).
      + by case_decide.
      + unfold diag. rewrite length_tabulate. lia. }
  destruct i as [|i'], j as [|j']; try done.
  - rewrite Hn, Hrow. repeat case_decide; try done; lia.
  - rewrite Hn, Hrow. repeat case_decide; try done; lia.
  - rewrite !mget_diag.
    destruct (decide (i' = j')) as [->|Hne]; [done|].
    assert ((i' =? j') = false) as -> by (apply Nat.eqb_neq; done).
    assert ((j' =? i') = false) as -> by (apply Nat.eqb_neq; done).
    repeat case_decide; try done; lia.
Qed.

Lemma length_interleave (u v : list F) :
  length u = length v -> length (interleave u v) = 2 * length u.
Proof.
  revert v. induction u as [|x u IH]; intros [|y v]; simpl; try done.
  intros [= Hlen]. rewrite (IH v Hlen). lia.
Qed.
End RoutineFacts.

(** * The Fourier routine *)

Section FourierFacts.
Context {F : Type} {SF : Scalar F} {CF : Collaborators F}.

(** The matrix built by [_fourier_penalty_matrix_optimized_orthonormal]:
    a diagonal matrix of [2 * ((n_basis - 1) // 2)] entries, with a
    row and a column of zeros put before it, and [weights[0] ** 2] at
    the corner. *)
Lemma fourier_orthonormal_matrix (n : Z) (period w0 : F) (ws : list F) :
  exists dg : list F,
    length dg = (2 * Z.to_nat ((n - 1) / 2))%nat /\
    _fourier_penalty_matrix_optimized_orthonormal n period (w0 :: ws) =
      Matrix (mset (pad_top_left (diag dg)) 0 0 (pow2 w0)).
Proof.
  unfold _fourier_penalty_matrix_optimized_orthonormal. cbv zeta.
  eexists. split; [|reflexivity].
  rewrite length_interleave.
  - rewrite length_zip_with, !length_map, length_seq. lia.
  - rewrite !length_zip_with, !length_map, length_seq. lia.
Qed.

Lemma fourier_accepts (n : Z) (dom : F * F) (period : F)
    (regularization : Regularization F) (weights : list F) :
  constant_weights (linear_diff_op regularization) = Some weights ->
  feqb period (fsub (snd dom) (fst dom)) = true ->
  penalty_matrix_optimized (Fourier n dom period) regularization =
    _fourier_penalty_matrix_optimized_orthonormal n period weights.
Proof.
  intros Hw Hp. simpl. unfold fourier_penalty_matrix_optimized.
  by rewrite Hw, Hp.
Qed.

(** C7: with constant weights, the Fourier routine returns
    [NotImplemented] exactly when the period differs from the length
    [b - a] of the domain; when they are equal it returns a matrix. *)
Theorem fourier_declines_iff_period_differs (n : Z) (dom : F * F)
    (period : F) (regularization : Regularization F) (w0 : F) (ws : list F) :
  constant_weights (linear_diff_op regularization) = Some (w0 :: ws) ->
  (penalty_matrix_optimized (Fourier n dom period) regularization
     = NotImplemented
   <-> feqb period (fsub (snd dom) (fst dom)) = false) /\
  (feqb period (fsub (snd dom) (fst dom)) = true ->
   exists R, penalty_matrix_optimized (Fourier n dom period) regularization
               = Matrix R).
Proof.
  intros Hw.
  destruct (feqb period (fsub (snd dom) (fst dom))) eqn:Hp.
  - rewrite (fourier_accepts _ _ _ _ _ Hw Hp).
    destruct (fourier_orthonormal_matrix n period w0 ws) as (dg & _ & ->).
    split; [split; discriminate|]. eauto.
  - split; [|discriminate]. split; [done|]. intros _. simpl.
    unfold fourier_penalty_matrix_optimized. by rewrite Hw, Hp.
Qed.


(** C10: the matrix returned by the Fourier routine is square of
    size [2 * floor((n_basis - 1) / 2) + 1]; that is [n_basis] exactly
    when [n_basis] is odd, and [n_basis - 1] when [n_basis] is even. *)
Theorem fourier_matrix_size (n : Z) (dom : F * F) (period : F)
    (regularization : Regularization F) (w0 : F) (ws : list F) :
  1 <= n ->
  constant_weights (linear_diff_op regularization) = Some (w0 :: ws) ->
  feqb period (fsub (snd dom) (fst dom)) = true ->
  exists (R : list (list F)) (size : nat),
    penalty_matrix_optimized (Fourier n dom period) regularization = Matrix R /\
    shape R size size /\
    Z.of_nat size = 2 * ((n - 1) / 2) + 1 /\
    (Z.of_nat size = n <-> Z.odd n = true) /\
    (Z.even n = true -> Z.of_nat size = n - 1).
Proof.
  intros Hn Hw Hp. rewrite (fourier_accepts _ _ _ _ _ Hw Hp).
  destruct (fourier_orthonormal_matrix n period w0 ws) as (dg & Hlen & ->).
  exists (mset (pad_top_left (diag dg)) 0 0 (pow2 w0)), (S (length dg)).
  split; [reflexivity|]. split.
  - apply shape_mset, shape_pad_top_left. unfold diag. apply shape_tabulate.
  - rewrite Hlen.
    assert (Hk : 0 <= (n - 1) / 2) by (apply Z.div_pos; lia).
    assert (Hsz : Z.of_nat (S (2 * Z.to_nat ((n - 1) / 2))) =
                  2 * ((n - 1) / 2) + 1) by lia.
    rewrite Hsz. split; [done|].
    pose proof (Z.div_mod (n - 1) 2 ltac:(lia)) as Hdm.
    pose proof (Z.mod_pos_bound (n - 1) 2 ltac:(lia)) as Hb.
    rewrite <- Z.negb_even.
    destruct (Z.even n) eqn:He; simpl.
    + apply Z.even_spec in He as [m Hm].
      split; [split; [intros; exfalso; lia|discriminate]|intros _; lia].
    + assert (Ho : Z.odd n = true) by (rewrite <- Z.negb_even, He; done).
      apply Z.odd_spec in Ho as [m Hm].
      split; [split; [done|intros _; lia]|discriminate].
Qed.
End FourierFacts.

Lemma fourier_declines_iff_period_differs_witness :
  let regularization := sample_regularization (Some [1%Q; 0%Q; 1%Q]) in
  constant_weights (linear_diff_op regularization) = Some [1%Q; 0%Q; 1%Q] /\
  ((penalty_matrix_optimized (CF := sample_collaborators)
      (Fourier 5 (0%Q, 2%Q) 2%Q) regularization = NotImplemented
    <-> feqb 2%Q (fsub 2%Q 0%Q) = false) /\
   (feqb 2%Q (fsub 2%Q 0%Q) = true ->
    exists R, penalty_matrix_optimized (CF := sample_collaborators)
                (Fourier 5 (0%Q, 2%Q) 2%Q) regularization = Matrix R)).
Proof.
  split; [reflexivity|].
  apply (fourier_declines_iff_period_differs (CF := sample_collaborators)
           5 (0%Q, 2%Q) 2%Q
           (sample_regularization (Some [1%Q; 0%Q; 1%Q])) 1%Q [0%Q; 1%Q]).
  reflexivity.
Defined.


Lemma fourier_matrix_size_witness :
  exists (R : list (list Q)) (size : nat),
    penalty_matrix_optimized (CF := sample_collaborators)
      (Fourier 4 (0%Q, 2%Q) 2%Q)
      (sample_regularization (Some [3%Q; 0%Q; 1%Q])) = Matrix R /\
    shape R size size /\
    Z.of_nat size = 2 * ((4 - 1) / 2) + 1 /\
    (Z.of_nat size = 4 <-> Z.odd 4 = true) /\
    (Z.even 4 = true -> Z.of_nat size = 4 - 1).
Proof.
  exact (fourier_matrix_size (CF := sample_collaborators)
           4 (0%Q, 2%Q) 2%Q
           (sample_regularization (Some [3%Q; 0%Q; 1%Q])) 3%Q [0%Q; 1%Q]
           ltac:(lia) eq_refl eq_refl).
Defined.

(** * The constant routine *)

(** C4: for the constant basis on [[a, b]] and constant weights [w],
    the routine returns the 1x1 matrix [[w_0 ** 2 * (b - a)]]; on
    [[0, 1]] with the single weight 2 this is [[4.0]], in binary64 and
    in exact arithmetic. *)
Theorem constant_closed_form :
  (forall (F : Type) (S : Scalar F) (C : Collaborators F) (a b : F)
          (regularization : Regularization F) (w0 : F) (ws : list F),
      constant_weights (linear_diff_op regularization) = Some (w0 :: ws) ->
      penalty_matrix_optimized (Constant (a, b)) regularization =
        Matrix [[fmul (fmul w0 w0) (fsub b a)]]) /\
  (forall C : Collaborators float,
      penalty_matrix_optimized (Constant (0x0p0%float, 0x1p0%float))
        (sample_regularization (Some [0x1p1%float])) =
        Matrix [[0x1p2%float]]) /\
  (forall C : Collaborators Q,
      penalty_matrix_optimized (Constant (0%Q, 1%Q))
        (sample_regularization (Some [2%Q])) = Matrix [[4%Q]]).
Proof.
  split; [|split].
  - intros F S C a b regularization w0 ws Hw. simpl.
    unfold constant_penalty_matrix_optimized. rewrite Hw. reflexivity.
  - intros C. vm_compute. reflexivity.
  - intros C. vm_compute. reflexivity.
Qed.

Lemma constant_closed_form_witness :
  penalty_matrix_optimized (CF := sample_collaborators)
    (Constant (1%Q, 3%Q)) (sample_regularization (Some [5%Q; 7%Q])) =
    Matrix [[fmul (fmul 5%Q 5%Q) (fsub 3%Q 1%Q)]].
Proof.
  apply (proj1 constant_closed_form Q Q_Scalar sample_collaborators
           1%Q 3%Q (sample_regularization (Some [5%Q; 7%Q])) 5%Q [7%Q]).
  reflexivity.
Defined.

(** * The B-spline routine: the branches that need no spline calculus *)

Section BSplineBranches.
Context {F : Type} {SF : Scalar F} {CF : Collaborators F}.

Lemma elem_of_flatnonzero (a : list F) (z : Z) :
  z ∈ flatnonzero a <->
  exists (i : nat) (x : F),
    z = Z.of_nat i /\ a !! i = Some x /\ feqb x fzero = false.
Proof.
  unfold flatnonzero. rewrite map_fmap, list_elem_of_fmap. split.
  - intros ([i x] & -> & Hin). apply list_elem_of_filter in Hin as [Hnz Hin].
    apply elem_of_lookup_imap in Hin as (i' & x' & [= -> ->] & Hx).
    exists i', x'. split; [done|]. split; [done|].
    by destruct (feqb x' fzero).
  - intros (i & x & -> & Hx & Hnz). exists (i, x). split; [done|].
    apply list_elem_of_filter. split; [by rewrite Hnz|].
    apply elem_of_lookup_imap. eauto.
Qed.

Lemma surviving_orders_nil (order : Z) (coefs : list F) :
  (forall (d : nat) (x : F),
      coefs !! d = Some x -> feqb x fzero = false -> order <= Z.of_nat d) ->
  surviving_orders order coefs = [].
Proof.
  intros Hall. unfold surviving_orders.
  destruct (filter _ _) as [|z l] eqn:E; [done|]. exfalso.
  assert (Hz : z ∈ filter (fun d => d < order) (flatnonzero coefs))
    by (rewrite E; left).
  apply list_elem_of_filter in Hz as [Hlt Hz].
  apply elem_of_flatnonzero in Hz as (i & x & -> & Hx & Hnz).
  specialize (Hall i x Hx Hnz). lia.
Qed.

(** C8: when every nonzero weight sits at a derivative order that is
    at least the order of the spline, the B-spline routine returns the
    zero matrix of size [n_basis]. *)
Theorem bspline_zero_matrix (n : Z) (dom : F * F) (order : Z)
    (knots : list F) (numpy_scalar : list bool)
    (regularization : Regularization F) (coefs : list F) :
  constant_weights (linear_diff_op regularization) = Some coefs ->
  (forall (d : nat) (x : F),
      coefs !! d = Some x -> feqb x fzero = false -> order <= Z.of_nat d) ->
  exists R,
    penalty_matrix_optimized (BSpline n dom order knots numpy_scalar)
      regularization
      = Matrix R /\
    shape R (Z.to_nat n) (Z.to_nat n) /\
    forall i j : nat,
      (i < Z.to_nat n)%nat -> (j < Z.to_nat n)%nat -> mget R i j = Some fzero.
Proof.
  intros Hw Hall. simpl. unfold bspline_penalty_matrix_optimized.
  rewrite Hw. cbv zeta.
  change (filter (fun d => d < order) (flatnonzero coefs))
    with (surviving_orders order coefs).
  rewrite (surviving_orders_nil order coefs Hall).
  eexists. split; [reflexivity|]. split.
  - apply shape_tabulate.
  - intros i j Hi Hj. unfold zeros. rewrite mget_tabulate.
    by rewrite decide_True.
Qed.

(** C9: the B-spline routine returns [NotImplemented] when more than
    one nonzero weight of derivative order below the order of the spline
    remains, and, when the one remaining derivative order is below
    [order - 1], when some interval between knots has length zero. *)
Theorem bspline_declines (n : Z) (dom : F * F) (order : Z)
    (knots : list F) (numpy_scalar : list bool)
    (regularization : Regularization F) (coefs : list F) :
  constant_weights (linear_diff_op regularization) = Some coefs ->
  ((1 < length (surviving_orders order coefs))%nat ->
   penalty_matrix_optimized (BSpline n dom order knots numpy_scalar)
      regularization
     = NotImplemented) /\
  (forall d : Z,
      surviving_orders order coefs = [d] ->
      d < order - 1 ->
      (exists (i : nat) (x : F),
          np_diff knots !! i = Some x /\ feqb x fzero = true) ->
      penalty_matrix_optimized (BSpline n dom order knots numpy_scalar)
      regularization
        = NotImplemented).
Proof.
  intros Hw. simpl. unfold bspline_penalty_matrix_optimized.
  rewrite Hw. cbv zeta.
  change (filter (fun d => d < order) (flatnonzero coefs))
    with (surviving_orders order coefs).
  split.
  - destruct (surviving_orders order coefs) as [|d [|d' l]]; simpl;
      [lia | lia | done].
  - intros d -> Hd (i & x & Hx & Hzero).
    assert ((d =? order - 1) = false) as -> by (apply Z.eqb_neq; lia).
    assert (existsb (fun d => feqb d fzero) (np_diff knots) = true) as ->; [|done].
    apply existsb_exists. exists x. split; [|done].
    apply list_elem_of_In. by eapply list_elem_of_lookup_2.
Qed.
(** What the routine returns on each of its branches. *)
Lemma bspline_path_of_spec (n : Z) (dom : F * F) (order : Z)
    (knots : list F) (numpy_scalar : list bool)
    (regularization : Regularization F) :
  let r := penalty_matrix_optimized (BSpline n dom order knots numpy_scalar)
      regularization in
  match bspline_path_of order knots regularization with
  | NonConstant | SeveralOrders | ZeroLengthInterval => r = NotImplemented
  | ZeroMatrix => r = Matrix (zeros (Z.to_nat n) (Z.to_nat n))
  | MaximalDerivative =>
      r = Matrix (bspline_maximal_derivative
                    (BSpline n dom order knots numpy_scalar) knots (order - 1))
  | PiecewisePolynomial =>
      exists d,
        r = match bspline_piecewise_polynomial n order knots numpy_scalar d
            with
            | Some penalty_matrix => Matrix penalty_matrix
            | None => Raises TypeError
            end
  end.
Proof.
  simpl. unfold bspline_penalty_matrix_optimized, bspline_path_of,
    surviving_orders.
  destruct (constant_weights (linear_diff_op regularization)) as [coefs|];
    [|done].
  cbv zeta. destruct (filter _ _) as [|d [|? ?]]; [done| |done].
  destruct (d =? order - 1) eqn:E.
  - apply Z.eqb_eq in E as ->. done.
  - destruct (existsb _ _); [done|]. eauto.
Qed.
End BSplineBranches.

Lemma bspline_zero_matrix_witness :
  exists R,
    penalty_matrix_optimized (CF := sample_collaborators)
      (BSpline 3 (0%Q, 2%Q) 2 [0%Q; 1%Q; 2%Q] [false; false; false])
      (sample_regularization (Some [0%Q; 0%Q; 3%Q])) = Matrix R /\
    shape R 3 3 /\
    forall i j : nat, (i < 3)%nat -> (j < 3)%nat -> mget R i j = Some 0%Q.
Proof.
  refine (bspline_zero_matrix (CF := sample_collaborators)
            3 (0%Q, 2%Q) 2 [0%Q; 1%Q; 2%Q] [false; false; false]
            (sample_regularization (Some [0%Q; 0%Q; 3%Q])) [0%Q; 0%Q; 3%Q]
            eq_refl _).
  - intros [|[|[|d]]] x Hx Hnz; simpl in Hx; try lia;
      injection Hx as <-; discriminate Hnz.
Defined.

Lemma bspline_declines_witness :
  penalty_matrix_optimized (CF := sample_collaborators)
    (BSpline 5 (0%Q, 2%Q) 4 [0%Q; 1%Q; 2%Q] [false; false; false])
    (sample_regularization (Some [1%Q; 0%Q; 1%Q])) = NotImplemented /\
  penalty_matrix_optimized (CF := sample_collaborators)
    (BSpline 5 (0%Q, 2%Q) 4 [0%Q; 2%Q; 2%Q] [false; false; false])
    (sample_regularization (Some [0%Q; 0%Q; 1%Q])) = NotImplemented.
Proof.
  split.
  - apply (proj1 (bspline_declines (CF := sample_collaborators)
             5 (0%Q, 2%Q) 4 [0%Q; 1%Q; 2%Q] [false; false; false]
             (sample_regularization (Some [1%Q; 0%Q; 1%Q]))
             [1%Q; 0%Q; 1%Q] eq_refl)).
    vm_compute. lia.
  - apply (proj2 (bspline_declines (CF := sample_collaborators)
             5 (0%Q, 2%Q) 4 [0%Q; 2%Q; 2%Q] [false; false; false]
             (sample_regularization (Some [0%Q; 0%Q; 1%Q]))
             [0%Q; 0%Q; 1%Q] eq_refl) 2).
    + reflexivity.
    + lia.
    + exists 1%nat, (2 - 2)%Q. split; reflexivity.
Defined.

(** * The monomial routine *)

(** C5: for the monomial basis {1, x, x^2} on [[0, 1]] and the second
    derivative (weights [[0, 0, 1]]), the routine returns the 3x3
    matrix whose entry (2, 2) is 4 and whose other entries are 0. *)
Theorem monomial_second_derivative_example :
  forall (C : Collaborators Q) (lfd : Basis Q -> Q -> list Q),
  exists R,
    penalty_matrix_optimized (Monomial 3 (0%Q, 1%Q))
      {| linear_diff_op :=
           {| constant_weights := Some [0%Q; 0%Q; 1%Q]; lfd_call := lfd |} |}
      = Matrix R /\
    Forall2 (Forall2 Qeq) R
      [[0%Q; 0%Q; 0%Q]; [0%Q; 0%Q; 0%Q]; [0%Q; 0%Q; 4%Q]].
Proof.
  intros C lfd. eexists. split.
  - vm_compute. reflexivity.
  - repeat constructor.
Qed.

(** * Dispatch and fallback *)

Section Dispatch.
Context {F : Type} {SF : Scalar F} {CF : Collaborators F}.

Lemma fold_left_preserves {A B : Type} (P : A -> Prop) (f : A -> B -> A)
    (l : list B) (a : A) :
  (forall a b, P a -> In b l -> P (f a b)) -> P a -> P (fold_left f l a).
Proof.
  revert a. induction l as [|b l IH]; intros a Hf Ha; simpl; [done|].
  apply IH.
  - intros a' b' Ha' Hb'. apply Hf; [done|by right].
  - apply Hf; [done|by left].
Qed.

(** The numerical fallback returns a matrix as soon as [quad_vec]
    returns an array of the shape of the values of its integrand. *)
Lemma numerical_returns (regularization : Regularization F) (basis : Basis F) :
  (forall (f : F -> list F) (a b : F) (k : nat),
      (forall x, length (f x) = k) -> length (quad_vec f a b) = k) ->
  exists R, penalty_matrix_numerical regularization basis = Matrix R.
Proof.
  intros Hq. unfold penalty_matrix_numerical. cbv zeta.
  destruct (domain_range basis) as [a b].
  match goal with
  | |- context [quad_vec ?f a b] =>
      assert (Hl : length (quad_vec f a b) =
                   length (triu_indices (Z.to_nat (n_basis basis))))
        by (apply Hq; intros x; by rewrite length_map)
  end.
  rewrite Hl, Nat.eqb_refl. simpl. eauto.
Qed.

Lemma numerical_symmetric (regularization : Regularization F)
    (basis : Basis F) (R : list (list F)) :
  penalty_matrix_numerical regularization basis = Matrix R -> symmetric R.
Proof.
  unfold penalty_matrix_numerical. cbv zeta.
  destruct (domain_range basis) as [a b].
  match goal with
  | |- context [quad_vec ?f a b] => generalize (quad_vec f a b)
  end.
  intros vec.
  destruct (length vec =? length (triu_indices (Z.to_nat (n_basis basis))))%nat
    eqn:E; simpl; [|discriminate].
  intros [= <-]. apply symmetric_scatter_mirror. by apply Nat.eqb_eq.
Qed.

(** *** Loops that may raise *)

Lemma for_loop_preserves {A S : Type} (P : S -> Prop)
    (body : S -> A -> option S) (l : list A) (s s' : S) :
  (forall s0 x s1, P s0 -> In x l -> body s0 x = Some s1 -> P s1) ->
  P s -> for_loop body l s = Some s' -> P s'.
Proof.
  revert s. induction l as [|x l IH]; intros s Hstep Hs; simpl.
  - by intros [= <-].
  - destruct (body s x) as [s1|] eqn:E; [|done].
    apply IH.
    + intros s0 y s2 Hs0 Hy. apply Hstep; [done|by right].
    + apply (Hstep s x); [done|by left|done].
Qed.

Lemma for_loop_returns {A S : Type} (body : S -> A -> option S)
    (l : list A) (s : S) :
  (forall s0 x, In x l -> exists s1, body s0 x = Some s1) ->
  exists s', for_loop body l s = Some s'.
Proof.
  revert s. induction l as [|x l IH]; intros s Hstep; simpl; [eauto|].
  destruct (Hstep s x) as [s1 ->]; [by left|].
  apply IH. intros s0 y Hy. apply Hstep. by right.
Qed.

(** The loop ends by an exception only if its body raises. *)
Lemma for_loop_raises {A S : Type} (body : S -> A -> option S)
    (l : list A) (s : S) :
  for_loop body l s = None ->
  exists s0 x, In x l /\ body s0 x = None.
Proof.
  revert s. induction l as [|x l IH]; intros s; simpl; [done|].
  destruct (body s x) as [s1|] eqn:E.
  - intros (s0 & y & Hy & Hb)%IH. exists s0, y. split; [by right|done].
  - intros _. exists s, x. split; [by left|done].
Qed.

(** *** Exceptions of the optimised routines *)

(** The last branch of the B-spline routine returns when the knots at
    the left ends of the intervals it integrates over are numpy
    scalars. *)
Lemma piecewise_polynomial_returns (n order : Z) (knots : list F)
    (numpy_scalar : list bool) (derivative_degree : Z) :
  (forall i : nat, (i < length (no_0_intervals order knots))%nat ->
                   numpy_scalar !! i = Some true) ->
  exists M,
    bspline_piecewise_polynomial n order knots numpy_scalar derivative_degree
      = Some M.
Proof.
  intros Hnp. unfold bspline_piecewise_polynomial. cbv zeta.
  apply for_loop_returns. intros M interval Hin. apply in_seq in Hin.
  assert (Hi : numpy_scalar !! interval = Some true).
  { apply Hnp. unfold no_0_intervals. lia. }
  unfold loop_interval. apply for_loop_returns. intros M1 i _.
  unfold loop_i. cbv zeta. destruct (_ <=? _)%nat; [eauto|].
  unfold definite_integral. rewrite Hi. simpl.
  apply for_loop_returns. intros M2 j _.
  unfold loop_j. cbv zeta. destruct (_ <=? _)%nat; [eauto|].
  unfold definite_integral. rewrite Hi. simpl. eauto.
Qed.

(** It raises only at an interval whose left knot is not a numpy
    scalar. *)
Lemma piecewise_polynomial_raises (n order : Z) (knots : list F)
    (numpy_scalar : list bool) (derivative_degree : Z) :
  bspline_piecewise_polynomial n order knots numpy_scalar derivative_degree
    = None ->
  exists i : nat, (i < length (no_0_intervals order knots))%nat /\
                  numpy_scalar !! i <> Some true.
Proof.
  intros Hraise.
  destruct (decide (Forall (fun i => numpy_scalar !! i = Some true)
                           (seq 0 (length (no_0_intervals order knots)))))
    as [Hall|Hex].
  - destruct (piecewise_polynomial_returns n order knots numpy_scalar
                derivative_degree) as [M HM]; [|congruence].
    intros i Hi. rewrite Forall_forall in Hall. apply Hall.
    apply elem_of_seq. lia.
  - apply not_Forall_Exists in Hex; [|apply _].
    apply Exists_exists in Hex as (i & Hi & Hno).
    apply elem_of_seq in Hi. exists i. split; [lia|done].
Qed.

(** With at least one weight, an optimised routine raises only
    [TypeError], on the last branch of the B-spline routine, where a
    knot that is a plain Python number is subtracted from a slice of
    [basis.knots]. *)
Lemma optimized_raises_only_type_error (basis : Basis F)
    (regularization : Regularization F) (e : exception) :
  constant_weights (linear_diff_op regularization) <> Some [] ->
  penalty_matrix_optimized basis regularization = Raises e ->
  e = TypeError /\
  exists n d o k t,
    basis = BSpline n d o k t /\
    bspline_path_of o k regularization = PiecewisePolynomial /\
    exists i : nat, (i < length (no_0_intervals o k))%nat /\
                    t !! i <> Some true.
Proof.
  intros Hw. unfold penalty_matrix_optimized.
  destruct basis as [d|n d|n d p|n d o k t|n d]; [| | | |done].
  - unfold constant_penalty_matrix_optimized.
    destruct (constant_weights (linear_diff_op regularization))
      as [[|w0 ws]|]; [done| |done].
    simpl. by destruct d.
  - unfold monomial_penalty_matrix_optimized.
    destruct (constant_weights (linear_diff_op regularization))
      as [[|w0 ws]|]; done.
  - unfold fourier_penalty_matrix_optimized.
    destruct (constant_weights (linear_diff_op regularization))
      as [[|w0 ws]|]; [done| |done].
    destruct (negb _); [done|].
    by destruct (fourier_orthonormal_matrix n p w0 ws) as (dg & _ & ->).
  - intros Hr.
    pose proof (bspline_path_of_spec n d o k t regularization) as Hspec.
    cbv zeta in Hspec. simpl penalty_matrix_optimized in Hspec.
    destruct (bspline_path_of o k regularization) eqn:Ep;
      try (rewrite Hspec in Hr; discriminate Hr).
    destruct Hspec as [dd Hdd]. rewrite Hdd in Hr.
    destruct (bspline_piecewise_polynomial n o k t dd) as [M|] eqn:EM;
      [done|].
    injection Hr as <-. split; [done|]. exists n, d, o, k, t.
    split; [done|]. split; [done|].
    by apply (piecewise_polynomial_raises n o k t dd).
Qed.

(** X14: [penalty_matrix] never returns [NotImplemented]: when the
    optimised routine returns it, or when none is registered for the
    class of the basis, the result is that of the numerical fallback,
    a matrix; a matrix of the optimised routine is returned as it is.
    With at least one weight, an exception of an optimised routine is
    the [TypeError] of the last branch of the B-spline routine, at a
    knot that is not a numpy scalar; when the knots are numpy scalars
    (or the basis is no B-spline basis), [penalty_matrix] returns a
    matrix. *)
Theorem penalty_matrix_falls_back (regularization : Regularization F)
    (basis : Basis F) :
  (forall (f : F -> list F) (a b : F) (k : nat),
      (forall x, length (f x) = k) -> length (quad_vec f a b) = k) ->
  constant_weights (linear_diff_op regularization) <> Some [] ->
  penalty_matrix regularization basis <> NotImplemented /\
  (penalty_matrix_optimized basis regularization = NotImplemented ->
   penalty_matrix regularization basis
     = penalty_matrix_numerical regularization basis /\
   exists R, penalty_matrix regularization basis = Matrix R) /\
  (forall n d, basis = OtherBasis n d ->
   penalty_matrix regularization basis
     = penalty_matrix_numerical regularization basis) /\
  (forall R, penalty_matrix_optimized basis regularization = Matrix R ->
   penalty_matrix regularization basis = Matrix R) /\
  (forall e, penalty_matrix_optimized basis regularization = Raises e ->
   e = TypeError /\
   exists n d o k t,
     basis = BSpline n d o k t /\
     bspline_path_of o k regularization = PiecewisePolynomial /\
     exists i : nat, (i < length (no_0_intervals o k))%nat /\
                     t !! i <> Some true) /\
  ((forall n d o k t, basis = BSpline n d o k t ->
    forall i : nat, (i < length (no_0_intervals o k))%nat ->
                    t !! i = Some true) ->
   exists R, penalty_matrix regularization basis = Matrix R).
Proof.
  intros Hq Hw.
  pose proof (numerical_returns regularization basis Hq) as [Rn Hn].
  pose proof (fun e =>
    optimized_raises_only_type_error basis regularization e Hw) as He.
  unfold penalty_matrix.
  destruct (penalty_matrix_optimized basis regularization) as [|R|e] eqn:Ho.
  - rewrite Hn. repeat split; try done; eauto.
  - repeat split; try done; eauto.
    intros n d ->. discriminate Ho.
  - destruct (He e eq_refl)
      as (-> & n & d & o & k & t & -> & Hp & i & Hi & Ht).
    split; [done|]. split; [done|]. split; [done|]. split; [done|]. split.
    + intros e' [= <-]. split; [done|]. exists n, d, o, k, t. eauto.
    + intros Hnp. destruct Ht. by apply (Hnp n d o k t).
Qed.

(** *** Symmetry of the matrices that are built by copying *)

Lemma Matrix_inj (m1 m2 : list (list F)) : Matrix m1 = Matrix m2 -> m1 = m2.
Proof. congruence. Qed.

Lemma symmetric_singleton (x : F) : symmetric [[x]].
Proof. intros [|[|i]] [|[|j]]; done. Qed.

Lemma symmetric_loop_interval (n derivative_degree : nat) (knots : list F)
    (numpy_scalar : list bool) (ppoly_lst : list (list (list F)))
    (M M' : list (list F)) (interval : nat) :
  symmetric M ->
  loop_interval n derivative_degree knots numpy_scalar ppoly_lst M interval
    = Some M' ->
  symmetric M'.
Proof.
  intros HM. unfold loop_interval. apply for_loop_preserves; [|done].
  intros M1 i M1' HM1 _. unfold loop_i. cbv zeta.
  destruct (_ <=? _)%nat; [by intros [= <-]|].
  destruct (definite_integral _ _ _ _) as [v|]; [|done].
  apply for_loop_preserves; [|by apply symmetric_mset_diag].
  intros M2 j M2' HM2 _. unfold loop_j. cbv zeta.
  destruct (_ <=? _)%nat; [by intros [= <-]|].
  destruct (definite_integral _ _ _ _) as [v'|]; [|done].
  intros [= <-]. by apply (symmetric_mset_mirror M2 i j _ fzero).
Qed.

Lemma symmetric_piecewise_polynomial (n order : Z) (knots : list F)
    (numpy_scalar : list bool) (derivative_degree : Z) (M : list (list F)) :
  bspline_piecewise_polynomial n order knots numpy_scalar derivative_degree
    = Some M ->
  symmetric M.
Proof.
  unfold bspline_piecewise_polynomial. cbv zeta.
  apply for_loop_preserves; [|apply symmetric_zeros].
  intros M0 interval M1 HM _. by apply symmetric_loop_interval.
Qed.

Lemma optimized_symmetric (basis : Basis F)
    (regularization : Regularization F) (R : list (list F)) :
  penalty_matrix_optimized basis regularization = Matrix R ->
  (forall n d o k t, basis = BSpline n d o k t ->
                   bspline_path_of o k regularization <> MaximalDerivative) ->
  symmetric R.
Proof.
  unfold penalty_matrix_optimized.
  destruct basis as [d|n d|n d p|n d o k t|n d]; [| | | |done].
  - unfold constant_penalty_matrix_optimized.
    destruct (constant_weights (linear_diff_op regularization))
      as [[|w0 ws]|]; [done| |done].
    simpl. destruct d as [a b]. intros [= <-] _. apply symmetric_singleton.
  - unfold monomial_penalty_matrix_optimized.
    destruct (constant_weights (linear_diff_op regularization))
      as [[|w0 ws]|]; [done| |done].
    cbv zeta. intros [= <-] _. apply symmetric_scatter_mirror.
    rewrite length_zip_with, !length_map. lia.
  - unfold fourier_penalty_matrix_optimized.
    destruct (constant_weights (linear_diff_op regularization))
      as [[|w0 ws]|]; [| |done].
    { destruct (negb _); [done|].
      unfold _fourier_penalty_matrix_optimized_orthonormal. done. }
    destruct (negb _); [done|].
    destruct (fourier_orthonormal_matrix n p w0 ws) as (dg & _ & ->).
    intros HR%Matrix_inj _. subst R.
    apply symmetric_mset_diag, symmetric_pad_diag.
  - intros HR Hpath. specialize (Hpath n d o k t eq_refl). revert HR Hpath.
    unfold bspline_penalty_matrix_optimized, bspline_path_of, surviving_orders.
    destruct (constant_weights (linear_diff_op regularization))
      as [coefs|]; [|done].
    cbv zeta. destruct (filter _ _) as [|dd [|? ?]]; [| |done].
    + intros [= <-] _. apply symmetric_zeros.
    + destruct (dd =? o - 1); [done|]. destruct (existsb _ _); [done|].
      destruct (bspline_piecewise_polynomial n o k t dd) as [M|] eqn:EM;
        [|done].
      intros [= <-] _. by apply (symmetric_piecewise_polynomial n o k t dd).
Qed.

(** C1, symmetry: off the maximal-derivative branch of the B-spline
    routine, the matrix that [penalty_matrix] returns is symmetric,
    entry for entry: the fallback, the monomial routine and the
    piecewise-polynomial branch copy the lower triangle from the upper
    one, and the other matrices are 1x1, diagonal or zero. *)
Theorem penalty_matrix_symmetric_off_maximal_derivative
    (regularization : Regularization F) (basis : Basis F)
    (R : list (list F)) :
  penalty_matrix regularization basis = Matrix R ->
  (forall n d o k t, basis = BSpline n d o k t ->
                   bspline_path_of o k regularization <> MaximalDerivative) ->
  symmetric R.
Proof.
  unfold penalty_matrix. intros HR Hpath.
  destruct (penalty_matrix_optimized basis regularization) as [|R'|e] eqn:Ho.
  - by eapply numerical_symmetric.
  - injection HR as <-. by eapply optimized_symmetric.
  - discriminate HR.
Qed.
End Dispatch.

Lemma penalty_matrix_falls_back_witness :
  let regularization := first_derivative in
  let basis := numpy_knots_basis in
  penalty_matrix (CF := uniform_quadratic_collaborators) regularization basis
    <> NotImplemented /\
  (penalty_matrix_optimized (CF := uniform_quadratic_collaborators)
     basis regularization = NotImplemented ->
   penalty_matrix (CF := uniform_quadratic_collaborators) regularization basis
     = penalty_matrix_numerical (CF := uniform_quadratic_collaborators)
         regularization basis /\
   exists R,
     penalty_matrix (CF := uniform_quadratic_collaborators)
       regularization basis = Matrix R) /\
  (forall n d, basis = OtherBasis n d ->
   penalty_matrix (CF := uniform_quadratic_collaborators) regularization basis
     = penalty_matrix_numerical (CF := uniform_quadratic_collaborators)
         regularization basis) /\
  (forall R,
   penalty_matrix_optimized (CF := uniform_quadratic_collaborators)
     basis regularization = Matrix R ->
   penalty_matrix (CF := uniform_quadratic_collaborators) regularization basis
     = Matrix R) /\
  (forall e,
   penalty_matrix_optimized (CF := uniform_quadratic_collaborators)
     basis regularization = Raises e ->
   e = TypeError /\
   exists n d o k t,
     basis = BSpline n d o k t /\
     bspline_path_of o k regularization = PiecewisePolynomial /\
     exists i : nat, (i < length (no_0_intervals o k))%nat /\
                     t !! i <> Some true) /\
  ((forall n d o k t, basis = BSpline n d o k t ->
    forall i : nat, (i < length (no_0_intervals o k))%nat ->
                    t !! i = Some true) ->
   exists R,
     penalty_matrix (CF := uniform_quadratic_collaborators)
       regularization basis = Matrix R).
Proof.
  refine (penalty_matrix_falls_back (CF := uniform_quadratic_collaborators)
            first_derivative numpy_knots_basis _ _).
  - intros f a b k Hf. simpl. rewrite length_map. apply Hf.
  - discriminate.
Defined.

Lemma penalty_matrix_symmetric_off_maximal_derivative_witness :
  let regularization := sample_regularization (Some [1%Q; 2%Q]) in
  let basis := OtherBasis 2 (1%Q, 3%Q) in
  exists R,
    penalty_matrix (CF := sample_collaborators) regularization basis
      = Matrix R /\
    symmetric R.
Proof.
  eexists. split; [vm_compute; reflexivity|].
  refine (penalty_matrix_symmetric_off_maximal_derivative
            (CF := sample_collaborators)
            (sample_regularization (Some [1%Q; 2%Q]))
            (OtherBasis 2 (1%Q, 3%Q)) _ _ _).
  - vm_compute. reflexivity.
  - intros n d o k t Hb. discriminate Hb.
Defined.

(** C1, symmetry, does not hold on the maximal-derivative branch of
    the B-spline routine: the matrix is the product
    [constants.T @ diag(intervals) @ constants], and in binary64 its
    entries (0, 1) and (1, 0) differ for the cubic basis on [[0, 5]]
    with the third derivative. *)
Lemma maximal_derivative_not_symmetric :
  exists R,
    penalty_matrix (CF := cubic_collaborators) third_derivative cubic_basis
      = Matrix R /\
    mget R 0 1 = Some (-0x1.1b1d92b7fe08ap-5)%float /\
    mget R 1 0 = Some (-0x1.1b1d92b7fe08bp-5)%float /\
    ~ symmetric R.
Proof.
  eexists. split; [vm_compute; reflexivity|].
  split; [reflexivity|]. split; [reflexivity|].
  intros Hsym. specialize (Hsym 0%nat 1%nat).
  apply (f_equal (fun o => match o with
                           | Some x => PrimFloat.eqb x (-0x1.1b1d92b7fe08bp-5)%float
                           | None => false
                           end)) in Hsym.
  vm_compute in Hsym. discriminate Hsym.
Qed.

(** C2, a matrix in every case, fails on the last branch of the
    B-spline routine: for [BSpline(knots=[0, 1, 2], order=3)] and the
    first derivative (weights [[0, 1]]) the definite integral
    subtracts the plain Python number [basis.knots[0]] from a slice of
    the list [basis.knots], which raises [TypeError], and
    [penalty_matrix] does not catch it.  (The branch of the maximal
    derivative converts [basis.knots] with [np.array] first.)  With
    the same knots as numpy scalars the matrix of the integrals of the
    products of the first derivatives is returned. *)
Theorem python_knots_raise_type_error :
  penalty_matrix (CF := uniform_quadratic_collaborators)
    first_derivative python_knots_basis = Raises TypeError /\
  exists R,
    penalty_matrix (CF := uniform_quadratic_collaborators)
      first_derivative numpy_knots_basis = Matrix R /\
    Forall2 (Forall2 Qeq) R
      [[Qmake 4 3; -1; Qmake (-1) 3; 0];
       [-1; Qmake 4 3; 0; Qmake (-1) 3];
       [Qmake (-1) 3; 0; Qmake 4 3; -1];
       [0; Qmake (-1) 3; -1; Qmake 4 3]]%Q.
Proof.
  split; [vm_compute; reflexivity|].
  eexists. split; [vm_compute; reflexivity|].
  repeat (match goal with |- Forall2 _ _ _ => constructor end);
    reflexivity.
Qed.

(** * Further properties of the routines *)

Section Declining.
Context {F : Type} {SF : Scalar F} {CF : Collaborators F}.

(** X1: when the weights of the operator are not constants
    ([constant_weights()] is [None]), the routine of every class of
    basis returns [NotImplemented], and [penalty_matrix] is the
    numerical fallback. *)
Theorem nonconstant_weights_fall_back (regularization : Regularization F)
    (basis : Basis F) :
  constant_weights (linear_diff_op regularization) = None ->
  penalty_matrix_optimized basis regularization = NotImplemented /\
  penalty_matrix regularization basis
    = penalty_matrix_numerical regularization basis.
Proof.
  intros Hw.
  assert (Ho : penalty_matrix_optimized basis regularization = NotImplemented).
  { unfold penalty_matrix_optimized.
    destruct basis as [d|n d|n d p|n d o k t|n d]; [| | | |done].
    - unfold constant_penalty_matrix_optimized. by rewrite Hw.
    - unfold monomial_penalty_matrix_optimized. by rewrite Hw.
    - unfold fourier_penalty_matrix_optimized. by rewrite Hw.
    - unfold bspline_penalty_matrix_optimized. by rewrite Hw. }
  split; [done|]. unfold penalty_matrix. by rewrite Ho.
Qed.

(** X2: with constant weights, the B-spline routine returns
    [NotImplemented] exactly when more than one derivative order below
    the order of the spline has a nonzero weight, or when the one such
    order is not [order - 1] and some interval between knots has length
    zero.  (On the branch [order - 1] knots may be repeated.) *)
Theorem bspline_declines_iff (n : Z) (dom : F * F) (order : Z)
    (knots : list F) (numpy_scalar : list bool)
    (regularization : Regularization F) (coefs : list F) :
  constant_weights (linear_diff_op regularization) = Some coefs ->
  (penalty_matrix_optimized (BSpline n dom order knots numpy_scalar)
      regularization
     = NotImplemented
   <->
   (1 < length (surviving_orders order coefs))%nat \/
   exists d : Z,
     surviving_orders order coefs = [d] /\ d <> order - 1 /\
     exists (i : nat) (x : F),
       np_diff knots !! i = Some x /\ feqb x fzero = true).
Proof.
  intros Hw. simpl. unfold bspline_penalty_matrix_optimized.
  rewrite Hw. cbv zeta.
  change (filter (fun d => d < order) (flatnonzero coefs))
    with (surviving_orders order coefs).
  destruct (surviving_orders order coefs) as [|d [|d' l]].
  - split; [discriminate|]. intros [Hl|(d & Hd & _)]; [simpl in Hl; lia|done].
  - destruct (d =? order - 1) eqn:Ed.
    + apply Z.eqb_eq in Ed. split; [discriminate|].
      intros [Hl|(d1 & [= <-] & Hne & _)]; [simpl in Hl; lia|done].
    + apply Z.eqb_neq in Ed.
      destruct (existsb (fun d0 => feqb d0 fzero) (np_diff knots)) eqn:Ex.
      * split; [intros _|done]. right. exists d. split; [done|].
        split; [done|]. apply existsb_exists in Ex as (x & Hin & Hx).
        apply list_elem_of_In, list_elem_of_lookup_1 in Hin as [i Hi]. eauto.
      * split; [by destruct (bspline_piecewise_polynomial _ _ _ _ _)|].
        intros [Hl|(d1 & _ & _ & i & x & Hi & Hx)]; [simpl in Hl; lia|].
        assert (existsb (fun d0 => feqb d0 fzero) (np_diff knots) = true)
          as Hex; [|congruence].
        apply existsb_exists. exists x. split; [|done].
        apply list_elem_of_In. by eapply list_elem_of_lookup_2.
  - split; [intros _; left; simpl; lia|done].
Qed.

(** *** Weights at or above the order of the spline *)

Lemma flatnonzero_from_0 (a : list F) : flatnonzero a = flatnonzero_from 0 a.
Proof. reflexivity. Qed.

Lemma flatnonzero_from_cons (k : nat) (x : F) (a : list F) :
  flatnonzero_from k (x :: a) =
    (if feqb x fzero then [] else [Z.of_nat k]) ++ flatnonzero_from (S k) a.
Proof.
  unfold flatnonzero_from. simpl imap.
  assert (Hext : imap ((fun i x0 => ((k + i)%nat, x0)) ∘ S) a =
                 imap (fun i x0 => ((S k + i)%nat, x0)) a).
  { apply imap_ext. intros i y _. simpl. f_equal. lia. }
  rewrite Hext, Nat.add_0_r.
  destruct (feqb x fzero) eqn:E.
  - rewrite filter_cons_False by (rewrite E; done). done.
  - rewrite filter_cons_True by (rewrite E; done). done.
Qed.

Lemma flatnonzero_from_high (order : Z) (k : nat) (a : list F) :
  order <= Z.of_nat k ->
  filter (fun d => d < order) (flatnonzero_from k a) = [].
Proof.
  revert k. induction a as [|x a IH]; intros k Hk; [done|].
  rewrite flatnonzero_from_cons, filter_app, IH by lia.
  destruct (feqb x fzero); [done|].
  rewrite filter_cons_False by lia. done.
Qed.

Lemma flatnonzero_from_take (order : Z) (k m : nat) (a : list F) :
  order <= Z.of_nat (k + m) ->
  filter (fun d => d < order) (flatnonzero_from k (take m a)) =
  filter (fun d => d < order) (flatnonzero_from k a).
Proof.
  revert k m. induction a as [|x a IH]; intros k m Hk.
  - by rewrite take_nil.
  - destruct m as [|m].
    + rewrite take_0. rewrite (flatnonzero_from_high order k (x :: a)) by lia.
      done.
    + simpl take. rewrite !flatnonzero_from_cons, !filter_app.
      rewrite (IH (S k) m) by lia. done.
Qed.

(** X3: the B-spline routine reads only the weights of the derivative
    orders below the order of the spline: two operators whose first
    [order] weights are the same get the same result. *)
Theorem bspline_ignores_high_orders (n : Z) (dom : F * F) (order : Z)
    (knots : list F) (numpy_scalar : list bool)
    (reg1 reg2 : Regularization F) (coefs1 coefs2 : list F) :
  constant_weights (linear_diff_op reg1) = Some coefs1 ->
  constant_weights (linear_diff_op reg2) = Some coefs2 ->
  take (Z.to_nat order) coefs1 = take (Z.to_nat order) coefs2 ->
  penalty_matrix_optimized (BSpline n dom order knots numpy_scalar) reg1 =
  penalty_matrix_optimized (BSpline n dom order knots numpy_scalar) reg2.
Proof.
  intros H1 H2 Htake. simpl. unfold bspline_penalty_matrix_optimized.
  rewrite H1, H2. cbv zeta.
  assert (Hs : filter (fun d => d < order) (flatnonzero coefs1) =
               filter (fun d => d < order) (flatnonzero coefs2)).
  { rewrite !flatnonzero_from_0.
    rewrite <- (flatnonzero_from_take order 0 (Z.to_nat order) coefs1) by lia.
    rewrite <- (flatnonzero_from_take order 0 (Z.to_nat order) coefs2) by lia.
    by rewrite Htake. }
  rewrite Hs. done.
Qed.
End Declining.

Section FourierEdge.
Context {F : Type} {SF : Scalar F} {CF : Collaborators F}.

End FourierEdge.

Lemma nonconstant_weights_fall_back_witness :
  penalty_matrix_optimized (CF := sample_collaborators)
    (Monomial 3 (0%Q, 1%Q)) (sample_regularization None) = NotImplemented /\
  penalty_matrix (CF := sample_collaborators)
    (sample_regularization None) (Monomial 3 (0%Q, 1%Q))
  = penalty_matrix_numerical (CF := sample_collaborators)
      (sample_regularization None) (Monomial 3 (0%Q, 1%Q)).
Proof.
  exact (nonconstant_weights_fall_back (CF := sample_collaborators)
           (sample_regularization None) (Monomial 3 (0%Q, 1%Q)) eq_refl).
Defined.

Lemma bspline_declines_iff_witness :
  penalty_matrix_optimized (CF := sample_collaborators)
    (BSpline 5 (0%Q, 2%Q) 4 [0%Q; 2%Q; 2%Q] [false; false; false])
    (sample_regularization (Some [0%Q; 0%Q; 1%Q])) = NotImplemented.
Proof.
  apply (proj2 (bspline_declines_iff (CF := sample_collaborators)
           5 (0%Q, 2%Q) 4 [0%Q; 2%Q; 2%Q] [false; false; false]
           (sample_regularization (Some [0%Q; 0%Q; 1%Q]))
           [0%Q; 0%Q; 1%Q] eq_refl)).
  right. exists 2. split; [reflexivity|]. split; [lia|].
  exists 1%nat, (2 - 2)%Q. split; reflexivity.
Defined.

Lemma bspline_ignores_high_orders_witness :
  penalty_matrix_optimized (CF := sample_collaborators)
    (BSpline 4 (0%Q, 2%Q) 3 [0%Q; 1%Q; 2%Q] [false; false; false])
    (sample_regularization (Some [0%Q; 1%Q; 0%Q; 5%Q])) =
  penalty_matrix_optimized (CF := sample_collaborators)
    (BSpline 4 (0%Q, 2%Q) 3 [0%Q; 1%Q; 2%Q] [false; false; false])
    (sample_regularization (Some [0%Q; 1%Q; 0%Q])).
Proof.
  exact (bspline_ignores_high_orders (CF := sample_collaborators)
           4 (0%Q, 2%Q) 3 [0%Q; 1%Q; 2%Q] [false; false; false]
           (sample_regularization (Some [0%Q; 1%Q; 0%Q; 5%Q]))
           (sample_regularization (Some [0%Q; 1%Q; 0%Q]))
           [0%Q; 1%Q; 0%Q; 5%Q] [0%Q; 1%Q; 0%Q] eq_refl eq_refl eq_refl).
Defined.


(** * The matrices entry by entry *)

Section Entries.
Context {F : Type} {SF : Scalar F} {CF : Collaborators F}.
Implicit Types (M : list (list F)).

Lemma flat_map_bind {A B} (f : A -> list B) (l : list A) :
  flat_map f l = l ≫= f.
Proof. induction l as [|x l IH]; [done|]. simpl. by rewrite IH. Qed.

Lemma NoDup_triu_indices (n : nat) : NoDup (triu_indices n).
Proof.
  unfold triu_indices. rewrite flat_map_bind. apply NoDup_bind.
  - intros i1 i2 [a b] _ _ H1 H2. rewrite map_fmap in H1, H2.
    apply list_elem_of_fmap in H1 as (j1 & [= -> ->] & _).
    apply list_elem_of_fmap in H2 as (j2 & [= -> ->] & _). done.
  - intros i _. rewrite map_fmap. apply NoDup_fmap_2; [|apply NoDup_seq].
    intros j1 j2 [= ->]. done.
  - apply NoDup_seq.
Qed.

Lemma triu_indices_position (n i j : nat) :
  (i <= j < n)%nat -> exists k, triu_indices n !! k = Some (i, j).
Proof.
  intros Hij. apply list_elem_of_lookup_1, list_elem_of_In, in_triu_indices.
  lia.
Qed.

Lemma fold_assoc_absent (idx : list (nat * nat)) (vals : list F)
    (key : nat * nat) (acc : option F) :
  key ∉ idx ->
  fold_left (fun acc '(k', v) => if decide (k' = key) then Some v else acc)
            (combine idx vals) acc = acc.
Proof.
  revert vals acc. induction idx as [|k0 idx IH]; intros [|v0 vals] acc Hn;
    simpl; try done.
  apply not_elem_of_cons in Hn as [Hne Hn].
  rewrite decide_False by done. by apply IH.
Qed.

(** In an assignment through an array of distinct indices, the value
    stored at an index is the value at the same position. *)
Lemma assoc_last_lookup (idx : list (nat * nat)) (vals : list F)
    (key : nat * nat) (v : F) (k : nat) :
  NoDup idx -> idx !! k = Some key -> vals !! k = Some v ->
  assoc_last (combine idx vals) key = Some v.
Proof.
  unfold assoc_last. generalize (@None F).
  revert vals k. induction idx as [|k0 idx IH]; intros vals k acc Hnd Hk Hv;
    [done|].
  destruct vals as [|v0 vals]; [done|].
  apply NoDup_cons in Hnd as [Hk0 Hnd]. simpl.
  destruct k as [|k].
  - injection Hk as ->. injection Hv as ->.
    rewrite decide_True by done. by apply fold_assoc_absent.
  - simpl in Hk, Hv. by eapply IH.
Qed.

Lemma shape_fold_store (ps : list ((nat * nat) * F)) M (rows cols : nat) :
  shape M rows cols -> shape (fold_left store ps M) rows cols.
Proof.
  intros HM. apply (fold_left_preserves (fun M0 => shape M0 rows cols));
    [|done].
  intros M' [[i j] v] HM' _. by apply shape_mset.
Qed.

Lemma shape_scatter M (idx : list (nat * nat)) (vals : list F)
    (rows cols : nat) :
  shape M rows cols -> shape (scatter M idx vals) rows cols.
Proof. rewrite scatter_fold. apply shape_fold_store. Qed.

(** The upper triangle is assigned from [vals], then the lower one:
    the entries (i, j) and (j, i) both hold the value at the position
    of (i, j) in [np.triu_indices(n)]. *)
Lemma mget_scatter_mirror (n : nat) (g : nat -> nat -> F) (vals : list F)
    (k i j : nat) (v : F) :
  triu_indices n !! k = Some (i, j) -> vals !! k = Some v ->
  let R := scatter (scatter (tabulate n n g) (triu_indices n) vals)
                   (swap_indices (triu_indices n)) vals in
  mget R i j = Some v /\ mget R j i = Some v.
Proof.
  intros Hk Hv R. subst R.
  assert (Hin : (i <= j /\ j < n)%nat).
  { apply in_triu_indices, list_elem_of_In. by eapply list_elem_of_lookup_2. }
  pose proof (assoc_last_lookup _ _ _ _ _ (NoDup_triu_indices n) Hk Hv) as Ha.
  rewrite !scatter_fold, !mget_fold_store, !assoc_last_swap, !mget_tabulate.
  rewrite Ha.
  rewrite (decide_True (P := (i < n ∧ j < n)%nat)) by lia.
  rewrite (decide_True (P := (j < n ∧ i < n)%nat)) by lia.
  split.
  - destruct (assoc_last (combine (triu_indices n) vals) (j, i)) as [v'|] eqn:E;
      [|done].
    destruct (decide (i = j)) as [->|Hne]; [by rewrite Ha in E|].
    rewrite assoc_last_None in E; [done|].
    intros Hin'. apply in_map_iff in Hin' as ([key' v''] & Hkey & Hin').
    simpl in Hkey. subst key'. apply in_combine_l in Hin'.
    apply in_triu_indices in Hin'. lia.
  - by destruct (assoc_last (combine (triu_indices n) vals) (j, i)).
Qed.

Lemma numerical_shape (regularization : Regularization F)
    (basis : Basis F) (R : list (list F)) :
  penalty_matrix_numerical regularization basis = Matrix R ->
  shape R (Z.to_nat (n_basis basis)) (Z.to_nat (n_basis basis)).
Proof.
  unfold penalty_matrix_numerical. cbv zeta.
  destruct (domain_range basis) as [a b].
  destruct (negb _); [discriminate|].
  intros HR%Matrix_inj. subst R.
  apply shape_scatter, shape_scatter. unfold np_empty. apply shape_tabulate.
Qed.

(** X5: the numerical fallback returns a matrix of size [n_basis], of
    which the entries (i, j) and (j, i), for i <= j, both hold the
    integral that [quad_vec] returns at the position of (i, j) in
    [np.triu_indices(n_basis)], the integral of the product of the
    operator applied to the basis functions i and j.  No element of
    the array from [np.empty] is left in it. *)
Theorem numerical_entries (regularization : Regularization F)
    (basis : Basis F) (R : list (list F)) :
  penalty_matrix_numerical regularization basis = Matrix R ->
  let n := Z.to_nat (n_basis basis) in
  let cross_product x :=
    let res := lfd_call (linear_diff_op regularization) basis x in
    map (fun '(i, j) => fmul (at0 res i) (at0 res j)) (triu_indices n) in
  let triang_vec :=
    quad_vec cross_product (fst (domain_range basis))
             (snd (domain_range basis)) in
  shape R n n /\
  (forall i j : nat, (i <= j < n)%nat ->
     exists k, triu_indices n !! k = Some (i, j)) /\
  (forall k i j : nat, triu_indices n !! k = Some (i, j) ->
     exists v, triang_vec !! k = Some v /\
               mget R i j = Some v /\ mget R j i = Some v).
Proof.
  unfold penalty_matrix_numerical. cbv zeta.
  destruct (domain_range basis) as [a b]. simpl fst. simpl snd.
  match goal with
  | |- context [quad_vec ?f a b] => generalize (quad_vec f a b)
  end.
  intros vec.
  destruct (length vec =? length (triu_indices (Z.to_nat (n_basis basis))))%nat
    eqn:E; simpl negb; cbv iota; [|discriminate].
  apply Nat.eqb_eq in E. intros HR%Matrix_inj. subst R.
  split; [|split].
  - apply shape_scatter, shape_scatter. unfold np_empty. apply shape_tabulate.
  - apply triu_indices_position.
  - intros k i j Hk.
    destruct (lookup_lt_is_Some_2 vec k) as [v Hv].
    { rewrite E. by eapply lookup_lt_Some. }
    exists v. split; [done|]. unfold np_empty.
    by apply (mget_scatter_mirror _ _ _ k).
Qed.

(** For a non-empty list of constant weights, the monomial routine
    returns a matrix of size [n_basis] of which the entries (i, j) and
    (j, i), for i <= j, both hold the number that the routine computes
    from the rows i and j of the matrix of
    [_monomial_evaluate_constant_linear_diff_op]. *)
Lemma monomial_entries_computed (n : Z) (dom : F * F)
    (regularization : Regularization F) (w0 : F) (ws : list F) :
  constant_weights (linear_diff_op regularization) = Some (w0 :: ws) ->
  exists R,
    penalty_matrix_optimized (Monomial n dom) regularization = Matrix R /\
    shape R (Z.to_nat n) (Z.to_nat n) /\
    forall i j : nat, (i <= j < Z.to_nat n)%nat ->
      let v := monomial_integral (Z.to_nat n) dom
                 (_monomial_evaluate_constant_linear_diff_op n (w0 :: ws)) i j in
      mget R i j = Some v /\ mget R j i = Some v.
Proof.
  intros Hw. simpl. unfold monomial_penalty_matrix_optimized. rewrite Hw.
  cbv zeta. eexists. split; [reflexivity|]. split.
  - apply shape_scatter, shape_scatter. unfold np_empty. apply shape_tabulate.
  - intros i j Hij.
    destruct (triu_indices_position (Z.to_nat n) i j Hij) as [k Hk].
    unfold np_empty. apply (mget_scatter_mirror _ _ _ k); [done|].
    rewrite lookup_zip_with, !map_fmap, !list_lookup_fmap, Hk. simpl.
    reflexivity.
Qed.

Lemma shape_loop_interval (n derivative_degree : nat) (knots : list F)
    (numpy_scalar : list bool) (ppoly_lst : list (list (list F))) M M'
    (interval rows cols : nat) :
  shape M rows cols ->
  loop_interval n derivative_degree knots numpy_scalar ppoly_lst M interval
    = Some M' ->
  shape M' rows cols.
Proof.
  intros HM. unfold loop_interval.
  apply (for_loop_preserves (fun M0 => shape M0 rows cols)); [|done].
  intros M1 i M1' HM1 _. unfold loop_i. cbv zeta.
  destruct (_ <=? _)%nat; [by intros [= <-]|].
  destruct (definite_integral _ _ _ _) as [v|]; [|done].
  apply (for_loop_preserves (fun M0 => shape M0 rows cols));
    [|by apply shape_mset].
  intros M2 j M2' HM2 _. unfold loop_j. cbv zeta.
  destruct (_ <=? _)%nat; [by intros [= <-]|].
  destruct (definite_integral _ _ _ _) as [v'|]; [|done].
  intros [= <-]. by apply shape_mset, shape_mset.
Qed.

Lemma shape_piecewise_polynomial (n order : Z) (knots : list F)
    (numpy_scalar : list bool) (derivative_degree : Z) (M : list (list F)) :
  bspline_piecewise_polynomial n order knots numpy_scalar derivative_degree
    = Some M ->
  shape M (Z.to_nat n) (Z.to_nat n).
Proof.
  unfold bspline_piecewise_polynomial. cbv zeta.
  apply (for_loop_preserves
           (fun M0 => shape M0 (Z.to_nat n) (Z.to_nat n))).
  - intros M0 interval M1 HM _. by apply shape_loop_interval.
  - unfold zeros. apply shape_tabulate.
Qed.

(** X7: the matrix that [penalty_matrix] returns has [n_basis] rows of
    [n_basis] elements, for every basis that is not a Fourier basis
    (whose matrix has an odd size) and not a B-spline basis on the
    maximal-derivative branch (whose matrix has the shape that
    [basis.evaluate] gives it). *)
Theorem penalty_matrix_shape (regularization : Regularization F)
    (basis : Basis F) (R : list (list F)) :
  penalty_matrix regularization basis = Matrix R ->
  (forall n d p, basis <> Fourier n d p) ->
  (forall n d o k t, basis = BSpline n d o k t ->
                   bspline_path_of o k regularization <> MaximalDerivative) ->
  shape R (Z.to_nat (n_basis basis)) (Z.to_nat (n_basis basis)).
Proof.
  intros HR Hfourier Hpath. unfold penalty_matrix in HR.
  destruct (penalty_matrix_optimized basis regularization) as [|R'|e] eqn:Ho;
    [|injection HR as ->|discriminate HR].
  { by apply (numerical_shape regularization). }
  revert Ho. unfold penalty_matrix_optimized.
  destruct basis as [d|n d|n d p|n d o k t|n d]; [| | | |done].
  - unfold constant_penalty_matrix_optimized.
    destruct (constant_weights (linear_diff_op regularization))
      as [[|w0 ws]|]; [done| |done].
    simpl. destruct d as [a b]. intros [= <-].
    split; [done|]. by repeat constructor.
  - unfold monomial_penalty_matrix_optimized.
    destruct (constant_weights (linear_diff_op regularization))
      as [[|w0 ws]|]; [done| |done].
    cbv zeta. intros HR%Matrix_inj. subst R.
    apply shape_scatter, shape_scatter. unfold np_empty. apply shape_tabulate.
  - by destruct (Hfourier n d p).
  - specialize (Hpath n d o k t eq_refl). revert Hpath.
    unfold bspline_penalty_matrix_optimized, bspline_path_of, surviving_orders.
    destruct (constant_weights (linear_diff_op regularization))
      as [coefs|]; [|done].
    cbv zeta. destruct (filter _ _) as [|dd [|? ?]]; [| |done].
    + intros _ HR%Matrix_inj. subst R. unfold zeros. apply shape_tabulate.
    + destruct (dd =? o - 1); [done|]. destruct (existsb _ _); [done|].
      destruct (bspline_piecewise_polynomial n o k t dd) as [M|] eqn:EM;
        [|done].
      intros _ HR%Matrix_inj. subst R.
      by apply (shape_piecewise_polynomial n o k t dd).
Qed.
End Entries.

Lemma numerical_entries_witness :
  exists R,
    penalty_matrix_numerical (CF := sample_collaborators)
      (sample_regularization (Some [1%Q; 2%Q])) (OtherBasis 2 (1%Q, 3%Q))
      = Matrix R /\
    shape R 2 2.
Proof.
  eexists. split; [vm_compute; reflexivity|].
  refine (proj1 (numerical_entries (CF := sample_collaborators)
                   (sample_regularization (Some [1%Q; 2%Q]))
                   (OtherBasis 2 (1%Q, 3%Q)) _ _)).
  vm_compute. reflexivity.
Defined.

Lemma penalty_matrix_shape_witness :
  exists R,
    penalty_matrix (CF := sample_collaborators)
      (sample_regularization (Some [0%Q; 0%Q; 1%Q])) (Monomial 3 (0%Q, 1%Q))
      = Matrix R /\
    shape R 3 3.
Proof.
  eexists. split; [vm_compute; reflexivity|].
  refine (penalty_matrix_shape (CF := sample_collaborators)
            (sample_regularization (Some [0%Q; 0%Q; 1%Q]))
            (Monomial 3 (0%Q, 1%Q)) _ _ _ _).
  - vm_compute. reflexivity.
  - intros n d p Hb. discriminate Hb.
  - intros n d o k t Hb. discriminate Hb.
Defined.

(** * The polynomials of the monomial routine *)

Section MonomialCoefficients.
Context {F : Type} {SF : Scalar F}.
Implicit Types (M : list (list F)).
Local Open Scope nat_scope.

Lemma zip_with_map_same {A B C D} (f : B -> C -> D) (g : A -> B) (h : A -> C)
    (l : list A) :
  zip_with f (map g l) (map h l) = map (fun x => f (g x) (h x)) l.
Proof. induction l as [|x l IH]; [done|]. simpl. by rewrite IH. Qed.

Lemma cumprod_from_closed (seq_ : list Z) (len s : nat) :
  cumprod_from (map (fun k => falling_wrapped k (S s)) seq_)
    (map (fun t => map (fun k => (k - Z.of_nat t)%Z) seq_) (seq (S s) len)) =
  map (fun t => map (fun k => falling_wrapped k (S t)) seq_) (seq (S s) len).
Proof.
  revert s. induction len as [|len IH]; intros s; [done|].
  simpl seq. simpl map. simpl cumprod_from.
  rewrite zip_with_map_same. f_equal. exact (IH (S s)).
Qed.

Lemma cumprod_closed (seq_ : list Z) (m : nat) :
  cumprod (map (fun t => map (fun k => (k - Z.of_nat t)%Z) seq_) (seq 0 m)) =
  map (fun t => map (fun k => falling_wrapped k (S t)) seq_) (seq 0 m).
Proof.
  destruct m as [|m]; [done|]. simpl seq. simpl map. unfold cumprod.
  assert (map (fun k => (k - Z.of_nat 0)%Z) seq_ =
          map (fun k => falling_wrapped k 1) seq_) as ->.
  { apply map_ext. intros k. simpl. lia. }
  by rewrite cumprod_from_closed.
Qed.

Lemma tabulate_ext (rows cols : nat) (f g : nat -> nat -> F) :
  (forall i j, i < rows -> j < cols -> f i j = g i j) ->
  tabulate rows cols f = tabulate rows cols g.
Proof.
  intros Hfg. unfold tabulate. apply map_ext_in. intros i Hi.
  apply in_seq in Hi. apply map_ext_in. intros j Hj. apply in_seq in Hj.
  apply Hfg; lia.
Qed.

Lemma at0_map_seq (f : nat -> F) (cols j : nat) :
  j < cols -> at0 (map f (seq 0 cols)) j = f j.
Proof.
  intros Hj. unfold at0. by rewrite map_fmap, list_lookup_fmap, lookup_seq_lt.
Qed.

Lemma transpose_tabulate (rows cols : nat) (f : nat -> nat -> F) :
  0 < rows ->
  transpose (tabulate rows cols f) = tabulate cols rows (fun i j => f j i).
Proof.
  intros Hr. unfold transpose. rewrite ncols_tabulate.
  destruct rows as [|rows]; [lia|]. unfold tabulate at 2.
  apply map_ext_in. intros j Hj. apply in_seq in Hj.
  unfold tabulate. rewrite map_map. apply map_ext. intros i.
  apply at0_map_seq. lia.
Qed.

Lemma replicate_map_seq (n : nat) (x : F) :
  replicate n x = map (fun _ => x) (seq 0 n).
Proof.
  generalize 0. induction n as [|n IH]; intros s; [done|].
  simpl. by rewrite <- IH.
Qed.

(** The array [coefs] of the derivatives of the monomials, one row for
    each order of derivative. *)
Lemma monomial_coefs_tabulate (n m : nat) :
  replicate n fone
    :: map (map fof_Z)
         (cumprod (map (fun t => map (fun k => (k - Z.of_nat t)%Z)
                                     (map Z.of_nat (seq 0 n)))
                       (seq 0 m)))
  = tabulate (S m) n
      (fun d k => match d with
                  | O => fone
                  | S _ => fof_Z (falling_wrapped (Z.of_nat k) d)
                  end).
Proof.
  rewrite cumprod_closed. unfold tabulate.
  change (seq 0 (S m)) with (0 :: seq 1 m). rewrite (map_cons _ 0 (seq 1 m)).
  f_equal; [apply replicate_map_seq|].
  rewrite <- seq_shift, !map_map. apply map_ext. intros t.
  by rewrite !map_map.
Qed.

Lemma zip_with_map_seq {A B} (f : A -> B -> F) (g : nat -> A) (l : list B)
    (d0 : B) :
  zip_with f (map g (seq 0 (length l))) l =
  map (fun d => f (g d) (default d0 (l !! d))) (seq 0 (length l)).
Proof.
  apply list_eq. intros i.
  rewrite lookup_zip_with, !map_fmap, !list_lookup_fmap.
  destruct (decide (i < length l)) as [Hi|Hi].
  - rewrite lookup_seq_lt by done. simpl.
    destruct (lookup_lt_is_Some_2 l i Hi) as [w ->]. done.
  - rewrite lookup_seq_ge by lia. done.
Qed.

Lemma weighted_tabulate (weights : list F) (n : nat) (g : nat -> nat -> F) :
  map (fun row => zip_with fmul row weights) (tabulate n (length weights) g) =
  tabulate n (length weights) (fun k d => fmul (g k d) (at0 weights d)).
Proof.
  unfold tabulate. rewrite map_map. apply map_ext. intros k.
  apply zip_with_map_seq.
Qed.

Lemma lookup_concat M (c i j : nat) :
  Forall (fun row => length row = c) M -> j < c ->
  concat M !! (i * c + j) = mget M i j.
Proof.
  intros HM Hj. revert i. induction HM as [|row M Hrow HM IH]; intros i.
  - by destruct i.
  - destruct i as [|i]; simpl concat.
    + rewrite lookup_app_l by lia. done.
    + rewrite lookup_app_r by lia.
      replace (S i * c + j - length row) with (i * c + j) by lia.
      apply IH.
Qed.

Lemma length_concat_shape M (r c : nat) :
  shape M r c -> length (concat M) = r * c.
Proof.
  intros [<- HM]. induction HM as [|row M Hrow HM IH]; [done|].
  simpl. rewrite length_app, IH. lia.
Qed.

Lemma np_resize_tabulate (L n : nat) (f : nat -> nat -> F) :
  np_resize n n (tabulate L n f) =
  tabulate n n (fun d k => if decide (d < L) then f d k else fzero).
Proof.
  unfold np_resize. unfold tabulate at 2.
  pose proof (shape_tabulate L n f) as Hshape.
  pose proof (length_concat_shape _ _ _ Hshape) as Hlen.
  apply map_ext_in. intros i Hi. apply in_seq in Hi.
  apply list_eq. intros j. rewrite map_fmap, list_lookup_fmap.
  destruct (decide (j < n)) as [Hj|Hj].
  - rewrite lookup_take_lt, lookup_drop by done.
    rewrite lookup_take_lt by nia. rewrite lookup_app.
    rewrite lookup_seq_lt by done. simpl.
    destruct (decide (i < L)) as [HiL|HiL].
    + rewrite (lookup_concat _ n i j (proj2 Hshape) Hj).
      rewrite mget_tabulate, decide_True by done. done.
    + rewrite (lookup_ge_None_2 (concat (tabulate L n f))) by nia.
      rewrite lookup_replicate_2 by nia. done.
  - rewrite lookup_take_ge by lia. rewrite lookup_seq_ge by lia. done.
Qed.

Lemma at0_row_tabulate (n : nat) (h : nat -> nat -> F) (i j : nat) :
  i < n -> j < n -> at0 (default [] (tabulate n n h !! i)) j = h i j.
Proof.
  intros Hi Hj. unfold tabulate. rewrite map_fmap, list_lookup_fmap.
  rewrite lookup_seq_lt by done. simpl. by apply at0_map_seq.
Qed.

Lemma in_tril_indices (n i j : nat) :
  In (i, j) (tril_indices n) <-> j <= i /\ i < n.
Proof.
  unfold tril_indices. rewrite in_flat_map. split.
  - intros (a & Ha & Hin). apply in_seq in Ha.
    apply in_map_iff in Hin as (b & [= <- <-] & Hb). apply in_seq in Hb. lia.
  - intros [Hij Hi]. exists i. split; [apply in_seq; lia|].
    apply in_map_iff. exists j. split; [done|]. apply in_seq. lia.
Qed.

Lemma fold_left_store_map {A} (key : A -> nat * nat) (val : A -> F)
    (l : list A) M :
  fold_left (fun P x => mset P (key x).1 (key x).2 (val x)) l M =
  fold_left store (map (fun x => (key x, val x)) l) M.
Proof.
  revert M. induction l as [|x l IH]; intros M; [done|].
  simpl. rewrite IH. unfold store at 2. by destruct (key x).
Qed.

Lemma assoc_last_map_inj {A} (key : A -> nat * nat) (val : A -> F)
    (l : list A) (p : A) :
  (forall q q', In q l -> In q' l -> key q = key q' -> q = q') ->
  In p l ->
  assoc_last (map (fun x => (key x, val x)) l) (key p) = Some (val p).
Proof.
  induction l as [|q l IH] using rev_ind; [done|].
  intros Hinj Hin. unfold assoc_last. rewrite map_app, fold_left_app. simpl.
  destruct (decide (key q = key p)) as [Hk|Hk].
  - f_equal. f_equal. apply Hinj; [| |done].
    + apply in_app_iff. right. by left.
    + done.
  - apply IH.
    + intros q1 q2 H1 H2. apply Hinj; apply in_app_iff; by left.
    + apply in_app_iff in Hin as [Hin|[->|[]]]; done.
Qed.

(** The matrix of coefficients before the shift: row [k], column [d]
    holds the coefficient of the derivative of order [d] of [x^k]. *)
Lemma monomial_weighted_coefs (n : nat) (weights : list F) :
  0 < n -> weights <> [] ->
  let max_derivative := length weights - 1 in
  let seq_ := map Z.of_nat (seq 0 n) in
  let coef_mat :=
    map (fun t => map (fun k => (k - Z.of_nat t)%Z) seq_)
        (seq 0 max_derivative) in
  let coefs := replicate n fone :: map (map fof_Z) (cumprod coef_mat) in
  transpose
    (np_resize n n
       (transpose
          (map (fun row => zip_with fmul row weights) (transpose coefs)))) =
  tabulate n n (monomial_coefficient weights).
Proof.
  intros Hn Hw. cbv zeta. rewrite monomial_coefs_tabulate.
  assert (HL : S (length weights - 1) = length weights).
  { destruct weights; [done|]. simpl. lia. }
  rewrite HL. rewrite transpose_tabulate by (destruct weights; simpl; [done|lia]).
  rewrite weighted_tabulate. rewrite transpose_tabulate by done.
  rewrite np_resize_tabulate. rewrite transpose_tabulate by done.
  apply tabulate_ext. intros k d Hk Hd. unfold monomial_coefficient, at0.
  destruct (decide (d < length weights)) as [HdL|HdL].
  - destruct (lookup_lt_is_Some_2 weights d HdL) as [w ->]. done.
  - rewrite (lookup_ge_None_2 weights d) by lia. done.
Qed.

(** X8: [_monomial_evaluate_constant_linear_diff_op] returns the
    polynomials of the operator applied to the monomials, one row for
    each, highest power first: in row [k], column [c] holds the
    coefficient of [x^(n_basis - 1 - c)], that is the weight of the
    derivative order [d = c - (n_basis - 1 - k)] times
    [k (k - 1) ... (k - d + 1)] (zero when the operator has no weight of
    that order), and the columns before [n_basis - 1 - k] hold zero. *)
Theorem monomial_polynomial_coefficients (n_basis : Z) (weights : list F)
    (k c : nat) :
  weights <> [] -> k < Z.to_nat n_basis -> c < Z.to_nat n_basis ->
  mget (_monomial_evaluate_constant_linear_diff_op n_basis weights) k c =
    Some (if decide (Z.to_nat n_basis - 1 - k <= c)
          then monomial_coefficient weights k (c - (Z.to_nat n_basis - 1 - k))
          else fzero).
Proof.
  intros Hw Hk Hc. unfold _monomial_evaluate_constant_linear_diff_op.
  cbv zeta. set (n := Z.to_nat n_basis) in *.
  rewrite (monomial_weighted_coefs n weights) by (done || lia).
  set (key := fun p : nat * nat =>
                (p.1, np_index n (Z.of_nat p.2 - Z.of_nat p.1 - 1))).
  set (val := fun p : nat * nat =>
                at0 (default [] (tabulate n n (monomial_coefficient weights)
                                   !! p.1)) p.2).
  assert (Hfold : forall M,
    fold_left
      (fun P '(i, j) =>
         mset P i (np_index n (Z.of_nat j - Z.of_nat i - 1))
           (at0 (default [] (tabulate n n (monomial_coefficient weights) !! i))
                j))
      (tril_indices n) M =
    fold_left (fun P x => mset P (key x).1 (key x).2 (val x))
      (tril_indices n) M).
  { intros M. generalize (tril_indices n). intros l. revert M.
    induction l as [|[i j] l IH]; intros M; [done|]. simpl. apply IH. }
  rewrite Hfold, fold_left_store_map, mget_fold_store.
  unfold zeros. rewrite mget_tabulate, decide_True by done.
  assert (Hkey : forall i j, j <= i -> i < n -> key (i, j) = (i, n - 1 - i + j)).
  { intros i j Hij Hi. unfold key, np_index. simpl. f_equal.
    rewrite (proj2 (Z.ltb_lt _ _)) by lia. lia. }
  destruct (decide (n - 1 - k <= c)) as [Hle|Hgt].
  - assert (Hin : In (k, c - (n - 1 - k)) (tril_indices n))
      by (apply in_tril_indices; lia).
    assert (Hkc : key (k, c - (n - 1 - k)) = (k, c)).
    { rewrite Hkey by lia. f_equal. lia. }
    rewrite <- Hkc. rewrite (assoc_last_map_inj key val); [|
      |done].
    + simpl. f_equal. unfold val. simpl. apply at0_row_tabulate; lia.
    + intros [i1 j1] [i2 j2] H1 H2. apply in_tril_indices in H1, H2.
      rewrite !Hkey by lia. intros [= -> Hj]. f_equal. lia.
  - rewrite assoc_last_None; [done|].
    intros Hin. apply in_map_iff in Hin as ([key' v] & Hfst & Hin).
    simpl in Hfst. subst key'.
    apply in_map_iff in Hin as ([i j] & Heq & Hin).
    apply (f_equal fst) in Heq. cbn [fst] in Heq.
    apply in_tril_indices in Hin. rewrite Hkey in Heq by lia.
    injection Heq as -> Hc'. lia.
Qed.
End MonomialCoefficients.

Lemma monomial_polynomial_coefficients_witness :
  mget (_monomial_evaluate_constant_linear_diff_op 4 [1%Q; 2%Q; 3%Q]) 3 2 =
    Some (if decide (Z.to_nat 4 - 1 - 3 <= 2)%nat
          then monomial_coefficient [1%Q; 2%Q; 3%Q] 3 (2 - (Z.to_nat 4 - 1 - 3))
          else 0%Q).
Proof.
  exact (monomial_polynomial_coefficients 4 [1%Q; 2%Q; 3%Q] 3 2
           ltac:(discriminate) ltac:(vm_compute; lia) ltac:(vm_compute; lia)).
Defined.

(** * The integer products of the monomial routine *)

Section IntegerProducts.

Lemma falling_wrapped_zero (k : Z) (d j : nat) :
  falling_wrapped k (S d) = 0 -> falling_wrapped k (S d + j) = 0.
Proof.
  intros H0. induction j as [|j IH]; [by rewrite Nat.add_0_r|].
  replace (S d + S j)%nat with (S (S (d + j))) by lia.
  change (wrap64 (falling_wrapped k (S (d + j)) * (k - Z.of_nat (S (d + j)))) = 0).
  change (S (d + j)) with (S d + j)%nat. rewrite IH. reflexivity.
Qed.

Lemma falling_zero (k : Z) (d j : nat) :
  falling k d = 0 -> falling k (d + j) = 0.
Proof.
  intros H0. induction j as [|j IH]; [by rewrite Nat.add_0_r|].
  replace (d + S j)%nat with (S (d + j)) by lia. simpl. rewrite IH. lia.
Qed.

Lemma products_agree_below_21 : forallb products_agree (seq 0 21) = true.
Proof. vm_compute. reflexivity. Qed.

Lemma falling_wrapped_exact (k d : nat) :
  (k <= 20)%nat -> falling_wrapped (Z.of_nat k) d = falling (Z.of_nat k) d.
Proof.
  intros Hk. pose proof products_agree_below_21 as Hall.
  rewrite forallb_forall in Hall. specialize (Hall k).
  rewrite in_seq in Hall. specialize (Hall ltac:(lia)).
  unfold products_agree in Hall. apply andb_prop in Hall as [Hd Hz].
  rewrite forallb_forall in Hd. apply Z.eqb_eq in Hz.
  destruct (decide (d < k + 2)%nat) as [Hlt|Hge].
  - apply Z.eqb_eq, Hd, in_seq. lia.
  - assert (Hw : falling_wrapped (Z.of_nat k) (S k) = 0).
    { rewrite <- Hz. apply Z.eqb_eq, Hd, in_seq. lia. }
    replace d with (S k + (d - S k))%nat by lia.
    rewrite (falling_wrapped_zero _ k) by done.
    by rewrite (falling_zero _ (S k)).
Qed.

(** X9: the products [k (k - 1) ... (k - d + 1)] that [np.cumprod]
    forms in the [int] array are the products in the integers when
    [n_basis <= 21]; for [n_basis = 22] and 21 derivative orders the
    last one, 21!, wraps around to a negative number. *)
Theorem cumprod_exact_up_to_21 :
  (forall n m t k : nat,
      (n <= 21)%nat -> (t < m)%nat -> (k < n)%nat ->
      mget (cumprod (map (fun t => map (fun k => k - Z.of_nat t)
                                       (map Z.of_nat (seq 0 n)))
                         (seq 0 m))) t k
        = Some (falling (Z.of_nat k) (S t))) /\
  mget (cumprod (map (fun t => map (fun k => k - Z.of_nat t)
                                   (map Z.of_nat (seq 0 22)))
                     (seq 0 21))) 20 21
    = Some (-4249290049419214848) /\
  falling 21 21 = 51090942171709440000.
Proof.
  split; [|split; vm_compute; reflexivity].
  intros n m t k Hn Ht Hk. rewrite cumprod_closed. unfold mget.
  rewrite map_fmap, list_lookup_fmap, lookup_seq_lt by done. simpl.
  rewrite !map_fmap, !list_lookup_fmap, lookup_seq_lt by done. simpl.
  f_equal. exact (falling_wrapped_exact k (S t) ltac:(lia)).
Qed.
End IntegerProducts.

Lemma cumprod_exact_up_to_21_witness :
  mget (cumprod (map (fun t => map (fun k => k - Z.of_nat t)
                                   (map Z.of_nat (seq 0 5)))
                     (seq 0 3))) 2 4
    = Some (falling 4 3).
Proof.
  exact (proj1 cumprod_exact_up_to_21 5 3 2 4
           ltac:(lia) ltac:(lia) ltac:(lia))%nat.
Defined.

(** * The maximal-derivative branch in exact arithmetic *)

Section ExactProduct.
Context {CF : Collaborators Q}.
Local Open Scope nat_scope.

Lemma np_sum_snoc (l : list Q) (a : Q) : np_sum (l ++ [a]) = Qplus (np_sum l) a.
Proof. unfold np_sum. by rewrite fold_left_app. Qed.

Lemma np_sum_Qeq (l l' : list Q) :
  Forall2 Qeq l l' -> Qeq (np_sum l) (np_sum l').
Proof.
  unfold np_sum. generalize (@fzero Q _) at 1 2. intros acc.
  assert (Hacc : Qeq acc acc) by reflexivity. revert Hacc.
  generalize acc at 1 3. generalize acc at 1 2. intros a b Hab H. revert a b Hab.
  induction H as [|x y l l' Hxy H IH]; intros a b Hab; [done|].
  simpl. apply IH. simpl. unfold fadd, Q_Scalar. by rewrite Hab, Hxy.
Qed.

(** A sum in which one term only is not zero *)
Lemma np_sum_single (m k : nat) (a x : nat -> Q) :
  Qeq (np_sum (map (fun l => Qmult (a l) (if (l =? k) then x l else 0%Q))
                   (seq 0 m)))
      (if decide (k < m) then Qmult (a k) (x k) else 0%Q).
Proof.
  induction m as [|m IH]; [done|].
  rewrite seq_S, map_app. simpl map. rewrite np_sum_snoc, IH.
  destruct (decide (k < m)) as [Hlt|Hge].
  - rewrite decide_True by lia.
    assert ((m =? k) = false) as -> by (apply Nat.eqb_neq; lia). ring.
  - destruct (decide (k = m)) as [->|Hne].
    + rewrite decide_True by lia. rewrite Nat.eqb_refl. ring.
    + rewrite decide_False by lia.
      assert ((m =? k) = false) as -> by (apply Nat.eqb_neq; lia). ring.
Qed.

Lemma zip_with_map_seq_min (f : Q -> Q -> Q) (v w : list Q) :
  zip_with f v w =
  map (fun l => f (at0 v l) (at0 w l)) (seq 0 (min (length v) (length w))).
Proof.
  apply list_eq. intros i.
  rewrite lookup_zip_with, map_fmap, list_lookup_fmap. unfold at0.
  destruct (decide (i < min (length v) (length w))) as [Hi|Hi].
  - rewrite lookup_seq_lt by done. simpl.
    destruct (lookup_lt_is_Some_2 v i) as [x ->]; [lia|].
    destruct (lookup_lt_is_Some_2 w i) as [y ->]; [lia|]. done.
  - rewrite lookup_seq_ge by lia.
    destruct (v !! i) as [x|] eqn:Ev; [|done]. simpl.
    rewrite (lookup_ge_None_2 w i); [done|].
    apply lookup_lt_Some in Ev. lia.
Qed.

Lemma column_diag (h : list Q) (k : nat) :
  k < length h ->
  column (diag h) k =
  map (fun l => if l =? k then at0 h l else 0%Q) (seq 0 (length h)).
Proof.
  intros Hk. unfold column, diag, tabulate. rewrite map_map.
  apply map_ext. intros l. by rewrite at0_map_seq.
Qed.

(** The product of a row with a column of the diagonal matrix *)
Lemma row_times_diag_column (v h : list Q) (k : nat) :
  k < length h ->
  Qeq (np_sum (zip_with fmul v (column (diag h) k)))
      (if decide (k < length v) then Qmult (at0 v k) (at0 h k) else 0%Q).
Proof.
  intros Hk. rewrite column_diag by done. rewrite zip_with_map_seq_min.
  rewrite length_map, length_seq.
  erewrite map_ext_in.
  - rewrite (np_sum_single _ k (at0 v) (at0 h)).
    destruct (decide (k < length v)).
    + rewrite decide_True by lia. reflexivity.
    + rewrite decide_False by lia. reflexivity.
  - intros l Hl. apply in_seq in Hl. simpl.
    rewrite at0_map_seq by lia. reflexivity.
Qed.

Lemma lookup_transpose (M : list (list Q)) (i : nat) :
  transpose M !! i = if decide (i < ncols M) then Some (column M i) else None.
Proof.
  unfold transpose. rewrite map_fmap, list_lookup_fmap.
  case_decide.
  - by rewrite lookup_seq_lt.
  - by rewrite lookup_seq_ge by lia.
Qed.

Lemma mget_matmul (A B : list (list Q)) (i j : nat) :
  mget (matmul A B) i j =
    match A !! i with
    | Some row =>
        if decide (j < ncols B)
        then Some (np_sum (zip_with fmul row (column B j))) else None
    | None => None
    end.
Proof.
  unfold mget, matmul. rewrite map_fmap, list_lookup_fmap.
  destruct (A !! i) as [row|]; [|done]. simpl.
  rewrite map_fmap, list_lookup_fmap. case_decide.
  - by rewrite lookup_seq_lt.
  - by rewrite lookup_seq_ge by lia.
Qed.

Lemma length_column (M : list (list Q)) (j : nat) :
  length (column M j) = length M.
Proof. unfold column. by rewrite length_map. Qed.

Lemma ncols_diag (h : list Q) : ncols (diag h) = length h.
Proof. unfold diag. rewrite ncols_tabulate. by destruct (length h). Qed.

(** The entries (i, j) and (j, i) of [v.T @ diag(h) @ v] are sums of
    the same terms. *)
Lemma product_entry_symmetric (C : list (list Q)) (h : list Q) (i j : nat) :
  let row v :=
    map (fun k => np_sum (zip_with fmul v (column (diag h) k)))
        (seq 0 (ncols (diag h))) in
  Qeq (np_sum (zip_with fmul (row (column C i)) (column C j)))
      (np_sum (zip_with fmul (row (column C j)) (column C i))).
Proof.
  intros row. apply np_sum_Qeq. apply Forall2_same_length_lookup_2.
  { subst row. rewrite !length_zip_with, !length_map, !length_column. done. }
  intros k x y Hx Hy.
  apply lookup_zip_with_Some in Hx as (a & b & -> & Ha & Hb).
  apply lookup_zip_with_Some in Hy as (a' & b' & -> & Ha' & Hb').
  subst row. cbv beta in Ha, Ha'. rewrite map_fmap, list_lookup_fmap in Ha, Ha'.
  destruct (seq 0 (ncols (diag h)) !! k) as [k'|] eqn:Ek; [|done].
  apply lookup_seq in Ek as [-> Hk]. simpl in Hk, Ha, Ha'.
  rewrite ncols_diag in Hk.
  injection Ha as <-. injection Ha' as <-.
  rewrite !row_times_diag_column by done.
  pose proof (lookup_lt_Some _ _ _ Hb) as Hlb.
  pose proof (lookup_lt_Some _ _ _ Hb') as Hlb'.
  rewrite length_column in Hlb, Hlb'.
  rewrite !decide_True by (rewrite length_column; done).
  unfold at0 at 1 3. rewrite Hb, Hb'. simpl.
  unfold fmul, Q_Scalar. ring.
Qed.

Lemma maximal_derivative_product_symmetric (basis : Basis Q)
    (knots : list Q) (derivative_degree : Z) (i j : nat) :
  let R := bspline_maximal_derivative basis knots derivative_degree in
  match mget R i j, mget R j i with
  | Some x, Some y => Qeq x y
  | None, None => True
  | _, _ => False
  end.
Proof.
  unfold bspline_maximal_derivative. cbv zeta.
  set (C := transpose (basis_evaluate basis _ derivative_degree)).
  set (h := np_diff knots).
  rewrite !mget_matmul.
  assert (Hrow : forall i0,
    matmul (transpose C) (diag h) !! i0 =
    if decide (i0 < ncols C)
    then Some (map (fun k => np_sum (zip_with fmul (column C i0)
                                                (column (diag h) k)))
                   (seq 0 (ncols (diag h))))
    else None).
  { intros i0. unfold matmul at 1. rewrite map_fmap, list_lookup_fmap.
    rewrite lookup_transpose. by case_decide. }
  rewrite !Hrow.
  destruct (decide (i < ncols C)), (decide (j < ncols C)); try done.
  apply product_entry_symmetric.
Qed.

(** X10: on the maximal-derivative branch of the B-spline routine, in
    exact (rational) arithmetic, the matrix
    [constants.T @ diag(intervals) @ constants] is symmetric: the
    entries (i, j) and (j, i) are equal rationals, whatever
    [basis.evaluate] returns. *)
Theorem maximal_derivative_symmetric_exact (n : Z) (dom : Q * Q)
    (order : Z) (knots : list Q) (numpy_scalar : list bool)
    (regularization : Regularization Q) :
  bspline_path_of order knots regularization = MaximalDerivative ->
  exists R,
    penalty_matrix_optimized (BSpline n dom order knots numpy_scalar)
      regularization
      = Matrix R /\
    forall i j : nat,
      match mget R i j, mget R j i with
      | Some x, Some y => Qeq x y
      | None, None => True
      | _, _ => False
      end.
Proof.
  intros Hpath.
  pose proof (bspline_path_of_spec n dom order knots numpy_scalar
                regularization) as Hspec.
  rewrite Hpath in Hspec. cbv zeta in Hspec. rewrite Hspec.
  eexists. split; [reflexivity|]. intros i j.
  apply maximal_derivative_product_symmetric.
Qed.
End ExactProduct.

Lemma maximal_derivative_symmetric_exact_witness :
  exists R,
    penalty_matrix_optimized (CF := quadratic_collaborators)
      (BSpline 4 (0%Q, 3%Q) 3 [0%Q; 1%Q; 3%Q] [false; false; false])
      (sample_regularization (Some [0%Q; 0%Q; 1%Q])) = Matrix R /\
    forall i j : nat,
      match mget R i j, mget R j i with
      | Some x, Some y => Qeq x y
      | None, None => True
      | _, _ => False
      end.
Proof.
  exact (maximal_derivative_symmetric_exact (CF := quadratic_collaborators)
           4 (0%Q, 3%Q) 3 [0%Q; 1%Q; 3%Q] [false; false; false]
           (sample_regularization (Some [0%Q; 0%Q; 1%Q])) eq_refl).
Defined.

(** * The Fourier routine in exact arithmetic *)

Section FourierOrderZero.
Context {F : Type} {SF : Scalar F}.

Lemma Forall_interleave (P : F -> Prop) (u v : list F) :
  Forall P u -> Forall P v -> Forall P (interleave u v).
Proof.
  intros Hu. revert v. induction Hu as [|x u Hx Hu IH]; intros v Hv; [done|].
  destruct Hv as [|y v Hy Hv]; [done|]. simpl.
  apply Forall_cons. split; [done|]. apply Forall_cons. split; [done|].
  by apply IH.
Qed.

(** The entries of the diagonal for an operator of order 0: the square
    of the one coefficient plus the square of an empty sum, in the two
    orders of [main_diag_odd] and [main_diag_even]. *)
Lemma fourier_order_zero_diagonal (n : Z) (period w0 : F) :
  let v := np_sum [fmul (fof_Z 1) (fmul fone w0)] in
  exists dg : list F,
    _fourier_penalty_matrix_optimized_orthonormal n period [w0] =
      Matrix (mset (pad_top_left (diag dg)) 0 0 (pow2 w0)) /\
    Forall (fun x => x = fadd (pow2 v) (pow2 (np_sum [])) \/
                     x = fadd (pow2 (np_sum [])) (pow2 v)) dg.
Proof.
  intros v. unfold _fourier_penalty_matrix_optimized_orthonormal. cbv zeta.
  eexists. split; [reflexivity|].
  rewrite !map_map, !zip_with_map_same.
  apply Forall_interleave; apply List.Forall_forall; intros x Hx;
    apply in_map_iff in Hx as (y & <- & _); [left|right]; reflexivity.
Qed.
End FourierOrderZero.

Section FourierOrderZeroExact.
Context {CF : Collaborators Q}.

(** X11: for an operator of order 0 (one weight [w0]) and a Fourier
    basis of period equal to the length of the domain, every entry of
    the diagonal of the matrix is, in exact arithmetic, [w0 ** 2]: with
    the zeros off the diagonal, the matrix is [w0 ** 2] times the
    identity. *)
Theorem fourier_order_zero_identity (n : Z) (dom : Q * Q) (period : Q)
    (regularization : Regularization Q) (w0 : Q) :
  constant_weights (linear_diff_op regularization) = Some [w0] ->
  feqb period (fsub (snd dom) (fst dom)) = true ->
  exists R,
    penalty_matrix_optimized (Fourier n dom period) regularization = Matrix R /\
    forall i : nat, (i < length R)%nat ->
      exists x, mget R i i = Some x /\ Qeq x (w0 * w0)%Q.
Proof.
  intros Hw Hp. rewrite (fourier_accepts _ _ _ _ _ Hw Hp).
  destruct (fourier_order_zero_diagonal n period w0) as (dg & -> & Hall).
  eexists. split; [reflexivity|]. intros i Hi.
  rewrite length_mset in Hi. unfold pad_top_left in Hi. simpl in Hi.
  rewrite length_map in Hi. unfold diag in Hi. rewrite length_tabulate in Hi.
  rewrite mget_mset, mget_pad_top_left. destruct i as [|i].
  - rewrite decide_True by done. rewrite decide_True by lia. simpl.
    eexists. split; [reflexivity|]. reflexivity.
  - rewrite decide_False by lia. rewrite mget_pad_top_left.
    rewrite mget_diag, decide_True by lia.
    rewrite Nat.eqb_refl. eexists. split; [reflexivity|].
    destruct (lookup_lt_is_Some_2 dg i) as [x Hx]; [lia|].
    unfold at0. rewrite Hx. simpl.
    rewrite Forall_lookup in Hall. destruct (Hall i x Hx) as [->| ->];
      cbn [np_sum fold_left pow2 fadd fmul fzero fone fof_Z Q_Scalar];
      change (inject_Z 1) with 1%Q; ring.
Qed.
End FourierOrderZeroExact.

Section FourierPairs.
Context {CF : Collaborators Q}.
Local Open Scope nat_scope.

Ltac sign_ring :=
  unfold fmul, fof_Z, Q_Scalar;
  change (inject_Z 1) with 1%Q; change (inject_Z (-1)) with (-1 # 1)%Q; ring.

Lemma tile_S (l : list Z) (r : nat) : tile l (S r) = l ++ tile l r.
Proof. reflexivity. Qed.

Lemma zip_with_take_length {A B C} (f : A -> B -> C) (l : list A) (k : list B) :
  zip_with f (take (length k) l) k = zip_with f l k.
Proof.
  revert l. induction k as [|y k IH]; intros [|x l]; simpl; try done.
  by rewrite IH.
Qed.

(** The signs of the even positions are the same in [signs_odd] and
    [signs_even]; those of the odd positions are opposite. *)
Lemma signs_shifted (r : nat) (c : list Q) :
  length c + 1 <= 4 * r ->
  let s := tile [1; 1; -1; -1]%Z r in
  Forall2 Qeq (evens (signed (drop 1 s) c)) (evens (signed s c)) /\
  Forall2 (fun x y => Qeq x (- y)) (odds (signed (drop 1 s) c))
          (odds (signed s c)).
Proof.
  revert c. induction r as [|r IH]; intros c Hlen; [simpl in Hlen; lia|].
  cbv zeta. rewrite tile_S.
  destruct c as [|c0 [|c1 [|c2 [|c3 c']]]].
  - split; constructor.
  - unfold signed, odds. simpl. rewrite ?zip_with_nil_r. simpl.
    split; repeat (match goal with |- Forall2 _ _ _ => constructor end);
      reflexivity.
  - unfold signed, odds. simpl. rewrite ?zip_with_nil_r. simpl.
    split; repeat (match goal with |- Forall2 _ _ _ => constructor end);
      try reflexivity; sign_ring.
  - unfold signed, odds. simpl. rewrite ?zip_with_nil_r. simpl.
    split; repeat (match goal with |- Forall2 _ _ _ => constructor end);
      try reflexivity; sign_ring.
  - destruct r as [|r]; [simpl in Hlen; lia|].
    specialize (IH c' ltac:(simpl in Hlen; lia)). cbv zeta in IH.
    destruct IH as [IHe IHo].
    set (T := tile [1; 1; -1; -1]%Z (S r)) in *.
    assert (HT : T = 1%Z :: drop 1 T) by reflexivity.
    change (drop 1 ([1; 1; -1; -1]%Z ++ T)) with ([1; -1; -1]%Z ++ T).
    rewrite HT at 1 3.
    unfold signed in *. unfold odds in *. simpl.
    split.
    + constructor; [reflexivity|]. constructor; [reflexivity|]. exact IHe.
    + constructor; [sign_ring|]. constructor; [sign_ring|].
      destruct c' as [|c4 c'']; [constructor|]. exact IHo.
Qed.

Lemma np_sum_opp (l l' : list Q) :
  Forall2 (fun x y => Qeq x (- y)) l l' -> Qeq (np_sum l) (- np_sum l').
Proof.
  unfold np_sum.
  assert (Hacc : Qeq (@fzero Q _) (- @fzero Q _)) by reflexivity. revert Hacc.
  generalize (@fzero Q _) at 1 3. generalize (@fzero Q _) at 1 2.
  intros b a Hab H. revert a b Hab.
  induction H as [|x y l l' Hxy H IH]; intros a b Hab; [done|].
  simpl. apply IH. unfold fadd, Q_Scalar. rewrite Hab, Hxy. ring.
Qed.

Lemma length_vander_row (x acc : Q) (N : nat) :
  length (vander_row x acc N) = N.
Proof. revert acc. induction N as [|N IH]; intros acc; simpl; auto. Qed.

Lemma lookup_interleave_map {A} (f g : A -> Q) (l : list A) (t : nat) :
  interleave (map f l) (map g l) !! (2 * t) = f <$> l !! t /\
  interleave (map f l) (map g l) !! (2 * t + 1) = g <$> l !! t.
Proof.
  revert t. induction l as [|a l IH]; intros t; [done|].
  destruct t as [|t]; [done|].
  replace (2 * S t) with (S (S (2 * t))) by lia.
  replace (S (S (2 * t)) + 1) with (S (S (2 * t + 1))) by lia.
  simpl interleave. simpl lookup. apply IH.
Qed.

(** The sum of squares of a sinusoidal pair does not depend on which
    of the two functions the operator is applied to. *)
Lemma pair_squares_equal (weights c : list Q) :
  length c = length weights ->
  let T := tile [1; 1; -1; -1]%Z (length weights / 4 + 1) in
  let signs_odd := take (length weights) T in
  let signs_even := take (length weights) (drop 1 T) in
  Qeq (fadd (pow2 (np_sum (evens (signed signs_odd c))))
            (pow2 (np_sum (odds (signed signs_odd c)))))
      (fadd (pow2 (np_sum (odds (signed signs_even c))))
            (pow2 (np_sum (evens (signed signs_even c))))).
Proof.
  intros Hlen. cbv zeta. rewrite <- Hlen. unfold signed.
  rewrite !zip_with_take_length.
  destruct (signs_shifted (length c / 4 + 1) c) as [He Ho].
  { pose proof (Nat.div_mod (length c) 4 ltac:(lia)).
    pose proof (Nat.mod_upper_bound (length c) 4 ltac:(lia)). lia. }
  cbv zeta in He, Ho. unfold signed in He, Ho.
  apply np_sum_Qeq in He. apply np_sum_opp in Ho.
  set (A' := np_sum (evens _)) in He at 1. set (A := np_sum (evens _)) in He.
  set (B' := np_sum (odds _)) in Ho at 1. set (B := np_sum (odds _)) in Ho.
  change (Qeq (A * A + B * B) (B' * B' + A' * A'))%Q.
  rewrite He, Ho. ring.
Qed.

(** The diagonal that [_fourier_penalty_matrix_optimized_orthonormal]
    builds, one pair of entries for each phase. *)
Lemma fourier_diagonal_pairs (n : Z) (period w0 : Q) (ws : list Q) :
  let weights := w0 :: ws in
  let T := tile [1; 1; -1; -1]%Z (length weights / 4 + 1) in
  let signs_odd := take (length weights) T in
  let signs_even := take (length weights) (drop 1 T) in
  let row x := zip_with fmul (vander_row x fone (length weights)) weights in
  let phases :=
    map (fun k => fdiv (fmul (fof_Z (Z.of_nat k * 2)) fpi) period)
        (seq 1 (Z.to_nat ((n - 1) / 2))) in
  _fourier_penalty_matrix_optimized_orthonormal n period weights =
    Matrix
      (mset
         (pad_top_left
            (diag
               (interleave
                  (map (fun x =>
                          fadd (pow2 (np_sum (evens (signed signs_odd (row x)))))
                               (pow2 (np_sum (odds (signed signs_odd (row x))))))
                       phases)
                  (map (fun x =>
                          fadd (pow2 (np_sum (odds (signed signs_even (row x)))))
                               (pow2 (np_sum (evens (signed signs_even (row x))))))
                       phases))))
         0 0 (pow2 w0)).
Proof.
  cbv zeta. unfold _fourier_penalty_matrix_optimized_orthonormal. cbv zeta.
  rewrite !map_map, !zip_with_map_same. reflexivity.
Qed.

(** X12: in exact arithmetic, the two entries of the diagonal for one
    phase, that of the sine and that of the cosine, are equal, for
    every list of weights: the signs of [signs_even] are those of
    [signs_odd] at the even orders and their opposites at the odd
    orders. *)
Theorem fourier_sine_cosine_equal (n : Z) (dom : Q * Q) (period : Q)
    (regularization : Regularization Q) (w0 : Q) (ws : list Q) :
  constant_weights (linear_diff_op regularization) = Some (w0 :: ws) ->
  feqb period (fsub (snd dom) (fst dom)) = true ->
  exists R,
    penalty_matrix_optimized (Fourier n dom period) regularization = Matrix R /\
    forall t : nat, 2 * t + 2 < length R ->
      exists x y,
        mget R (2 * t + 1) (2 * t + 1) = Some x /\
        mget R (2 * t + 2) (2 * t + 2) = Some y /\
        Qeq x y.
Proof.
  intros Hw Hp. rewrite (fourier_accepts _ _ _ _ _ Hw Hp).
  rewrite fourier_diagonal_pairs. cbv zeta.
  set (phases := map _ (seq 1 (Z.to_nat ((n - 1) / 2)))).
  set (fo := fun x : Q => fadd (pow2 (np_sum (evens _))) _).
  set (fe := fun x : Q => fadd (pow2 (np_sum (odds _))) _).
  set (dg := interleave (map fo phases) (map fe phases)).
  eexists. split; [reflexivity|]. intros t Ht.
  rewrite length_mset in Ht. unfold pad_top_left in Ht. simpl length in Ht.
  rewrite length_map in Ht. unfold diag in Ht. rewrite length_tabulate in Ht.
  assert (Hdg : length dg = 2 * length phases).
  { subst dg. rewrite length_interleave by (by rewrite !length_map).
    by rewrite length_map. }
  destruct (lookup_lt_is_Some_2 phases t) as [x Hx]; [lia|].
  destruct (lookup_interleave_map fo fe phases t) as [H0 H1].
  fold dg in H0, H1. rewrite Hx in H0, H1.
  exists (fo x), (fe x).
  replace (2 * t + 1) with (S (2 * t)) by lia.
  replace (2 * t + 2) with (S (2 * t + 1)) by lia.
  rewrite !mget_mset, !decide_False by lia. rewrite !mget_pad_top_left.
  rewrite !mget_diag, !decide_True by lia. rewrite !Nat.eqb_refl.
  unfold at0. rewrite H0, H1. simpl.
  split; [done|]. split; [done|].
  subst fo fe. cbv beta. apply pair_squares_equal.
  rewrite length_zip_with, length_vander_row. lia.
Qed.
End FourierPairs.

Lemma fourier_order_zero_identity_witness :
  exists R,
    penalty_matrix_optimized (CF := sample_collaborators)
      (Fourier 5 (0%Q, 3%Q) 3%Q) (sample_regularization (Some [2%Q]))
      = Matrix R /\
    forall i : nat, (i < length R)%nat ->
      exists x, mget R i i = Some x /\ Qeq x (2 * 2)%Q.
Proof.
  exact (fourier_order_zero_identity (CF := sample_collaborators)
           5 (0%Q, 3%Q) 3%Q (sample_regularization (Some [2%Q])) 2%Q
           eq_refl eq_refl).
Defined.

Lemma fourier_sine_cosine_equal_witness :
  exists R,
    penalty_matrix_optimized (CF := sample_collaborators)
      (Fourier 5 (0%Q, 3%Q) 3%Q)
      (sample_regularization (Some [1%Q; 0%Q; 1%Q])) = Matrix R /\
    forall t : nat, (2 * t + 2 < length R)%nat ->
      exists x y,
        mget R (2 * t + 1) (2 * t + 1) = Some x /\
        mget R (2 * t + 2) (2 * t + 2) = Some y /\
        Qeq x y.
Proof.
  exact (fourier_sine_cosine_equal (CF := sample_collaborators)
           5 (0%Q, 3%Q) 3%Q
           (sample_regularization (Some [1%Q; 0%Q; 1%Q])) 1%Q [0%Q; 1%Q]
           eq_refl eq_refl).
Defined.

(** * The padding of the monomial routine *)

Section Padding.
Local Open Scope nat_scope.

Lemma fold_left_Qplus_acc (l : list Q) (a : Q) :
  Qeq (fold_left Qplus l a) (a + fold_left Qplus l 0)%Q.
Proof.
  revert a. induction l as [|x l IH]; intros a; simpl; [ring|].
  rewrite (IH (a + x)%Q), (IH (0 + x)%Q). ring.
Qed.

Lemma np_sum_cons (x : Q) (l : list Q) :
  Qeq (np_sum (x :: l)) (x + np_sum l)%Q.
Proof.
  unfold np_sum. simpl. rewrite fold_left_Qplus_acc.
  unfold fadd, fzero, Q_Scalar. ring.
Qed.

(** Terms that are zero can be left out of a sum. *)
Lemma np_sum_filter (f : nat -> Q) (P : nat -> Prop)
    `{!forall s, Decision (P s)} (l : list nat) :
  (forall s, In s l -> ~ P s -> Qeq (f s) 0) ->
  Qeq (np_sum (map f l)) (np_sum (map f (filter P l))).
Proof.
  induction l as [|s l IH]; intros Hz; [reflexivity|].
  simpl map. destruct (decide (P s)) as [HP|HP].
  - rewrite filter_cons_True by done. simpl map. rewrite !np_sum_cons.
    rewrite IH; [reflexivity|]. intros s' Hs'. apply Hz. by right.
  - rewrite filter_cons_False by done. rewrite np_sum_cons.
    rewrite (Hz s) by (done || by left). rewrite IH.
    + ring.
    + intros s' Hs'. apply Hz. by right.
Qed.

Lemma filter_ext_in {A} (P Q : A -> Prop) `{!forall x, Decision (P x)}
    `{!forall x, Decision (Q x)} (l : list A) :
  (forall x, In x l -> (P x <-> Q x)) -> filter P l = filter Q l.
Proof.
  induction l as [|x l IH]; intros Hiff; [done|].
  assert (Hl : filter P l = filter Q l).
  { apply IH. intros y Hy. apply Hiff. by right. }
  destruct (decide (P x)) as [HP|HP].
  - rewrite !filter_cons_True; [by rewrite Hl| |done].
    apply Hiff; [by left|done].
  - rewrite !filter_cons_False; [done| |done].
    intros HQ. apply HP, Hiff; [by left|done].
Qed.

Lemma filter_none {A} (P : A -> Prop) `{!forall x, Decision (P x)} (l : list A) :
  (forall x, In x l -> ~ P x) -> filter P l = [].
Proof.
  induction l as [|x l IH]; intros Hno; [done|].
  rewrite filter_cons_False by (apply Hno; by left).
  apply IH. intros y Hy. apply Hno. by right.
Qed.

Lemma filter_seq_prefix (P Q : nat -> Prop) `{!forall x, Decision (P x)}
    `{!forall x, Decision (Q x)} (m N : nat) :
  m <= N ->
  (forall s, s < m -> (P s <-> Q s)) ->
  (forall s, m <= s -> s < N -> ~ P s) ->
  filter P (seq 0 N) = filter Q (seq 0 m).
Proof.
  intros HmN HPQ HP. replace N with (m + (N - m)) by lia.
  rewrite seq_app, filter_app. rewrite (filter_none P (seq (0 + m) (N - m))).
  - rewrite app_nil_r. apply filter_ext_in. intros s Hs. apply in_seq in Hs.
    apply HPQ. lia.
  - intros s Hs. apply in_seq in Hs. apply HP; lia.
Qed.

Lemma at0_padded (a : list Q) (N s : nat) :
  s < N -> at0 (take N (a ++ replicate N fzero)) s = at0 a s.
Proof.
  intros Hs. unfold at0. rewrite lookup_take_lt by done. rewrite lookup_app.
  destruct (a !! s) as [x|] eqn:E; [done|].
  destruct (replicate N fzero !! (s - length a)) as [y|] eqn:E2; [|done].
  apply lookup_replicate in E2 as [-> _]. done.
Qed.

Lemma at0_beyond (a : list Q) (s : nat) : length a <= s -> at0 a s = 0%Q.
Proof. intros Hs. unfold at0. by rewrite lookup_ge_None_2. Qed.

Lemma cyclic_index_low (k s N : nat) :
  s <= k -> k < N -> (k + N - s) mod N = k - s.
Proof.
  intros Hs Hk. replace (k + N - s) with (k - s + 1 * N) by lia.
  rewrite Nat.Div0.mod_add. apply Nat.mod_small. lia.
Qed.

Lemma cyclic_index_high (k s N : nat) :
  k < s -> s < N -> (k + N - s) mod N = k + N - s.
Proof. intros Hs Hk. apply Nat.mod_small. lia. Qed.

(** X13: the padded length [polynomials.shape[1] * 2 - 1] that
    [monomial_penalty_matrix_optimized] passes to [np.fft.rfft] and
    [np.fft.irfft] is long enough for the product of two rows of that
    length: in exact arithmetic no term wraps around, and the product
    of the transforms, transformed back, is [np.convolve] of the two
    rows, the coefficients of the product polynomial. *)
Theorem transform_product_is_convolution (n : nat) (a b : list Q) :
  length a = n -> length b = n ->
  Forall2 Qeq (rfft_mul_irfft (n * 2 - 1) a b) (convolve a b).
Proof.
  intros Ha Hb. set (N := n * 2 - 1).
  apply Forall2_same_length_lookup_2.
  { unfold rfft_mul_irfft, convolve. rewrite !length_map, !length_seq. lia. }
  intros k x y Hx Hy. unfold rfft_mul_irfft in Hx. unfold convolve in Hy.
  rewrite map_fmap, list_lookup_fmap in Hx, Hy.
  destruct (seq 0 N !! k) as [k1|] eqn:Ek1; [|done].
  apply lookup_seq in Ek1 as [-> HkN]. simpl in HkN, Hx. injection Hx as <-.
  destruct (seq 0 (length a + length b - 1) !! k) as [k2|] eqn:Ek2; [|done].
  apply lookup_seq in Ek2 as [-> _]. simpl in Hy. injection Hy as <-.
  set (P := fun s => s <= k /\ s < n /\ k - s < n).
  rewrite (np_sum_filter _ P).
  - rewrite (filter_seq_prefix P (fun s => k - s < length b)
               (min (S k) (length a)) N); [| lia | |].
    + apply np_sum_Qeq. apply Forall2_same_length_lookup_2;
        [by rewrite !length_map|].
      intros i u v Hu Hv. rewrite map_fmap, list_lookup_fmap in Hu, Hv.
      destruct (filter _ _ !! i) as [s|] eqn:Es; [|done].
      injection Hu as <-. injection Hv as <-.
      apply list_elem_of_lookup_2, list_elem_of_filter in Es as [HQ Hs].
      apply elem_of_seq in Hs.
      rewrite cyclic_index_low by lia. rewrite !at0_padded by lia.
      reflexivity.
    + intros s Hs. unfold P. lia.
    + intros s Hs HsN. unfold P. lia.
  - intros s Hs HP. apply in_seq in Hs. unfold P in HP. cbv beta.
    rewrite !at0_padded by (lia || (apply Nat.mod_upper_bound; lia)).
    destruct (decide (n <= s)) as [Hns|Hns].
    { rewrite (at0_beyond a s) by lia. unfold fmul, Q_Scalar. ring. }
    destruct (decide (s <= k)) as [Hsk|Hsk].
    + rewrite cyclic_index_low by lia.
      rewrite (at0_beyond b (k - s)) by lia. unfold fmul, Q_Scalar. ring.
    + rewrite cyclic_index_high by lia.
      rewrite (at0_beyond b (k + N - s)) by (subst N; lia).
      unfold fmul, Q_Scalar. ring.
Qed.
End Padding.

Lemma transform_product_is_convolution_witness :
  Forall2 Qeq (rfft_mul_irfft (2 * 2 - 1) [1%Q; 2%Q] [3%Q; 4%Q])
              (convolve [1%Q; 2%Q] [3%Q; 4%Q]).
Proof.
  exact (transform_product_is_convolution 2 [1%Q; 2%Q] [3%Q; 4%Q]
           eq_refl eq_refl).
Defined.

(** * The entries of the monomial routine in exact arithmetic *)

Section MonomialIntegrals.
Context {CF : Collaborators Q}.
Local Open Scope nat_scope.

Lemma Qsum_app (l1 l2 : list Q) :
  Qeq (Qsum (l1 ++ l2)) (Qsum l1 + Qsum l2)%Q.
Proof.
  induction l1 as [|x l1 IH]; simpl; [ring|]. rewrite IH. ring.
Qed.

Lemma np_sum_Qsum (l : list Q) : Qeq (np_sum l) (Qsum l).
Proof.
  induction l as [|x l IH] using rev_ind; [reflexivity|].
  rewrite np_sum_snoc, Qsum_app, IH. simpl. ring.
Qed.

Lemma Qsum_ext {A} (f g : A -> Q) (l : list A) :
  (forall x, In x l -> Qeq (f x) (g x)) ->
  Qeq (Qsum (map f l)) (Qsum (map g l)).
Proof.
  induction l as [|x l IH]; intros Hfg; simpl; [reflexivity|].
  rewrite (Hfg x) by (by left). rewrite IH; [reflexivity|].
  intros y Hy. apply Hfg. by right.
Qed.

Lemma Qsum_zero {A} (f : A -> Q) (l : list A) :
  (forall x, In x l -> Qeq (f x) 0) -> Qeq (Qsum (map f l)) 0.
Proof.
  induction l as [|x l IH]; intros Hf; simpl; [reflexivity|].
  rewrite (Hf x) by (by left). rewrite IH; [ring|].
  intros y Hy. apply Hf. by right.
Qed.

Lemma Qsum_scale {A} (f : A -> Q) (c : Q) (l : list A) :
  Qeq (Qsum (map f l) * c)%Q (Qsum (map (fun x => f x * c)%Q l)).
Proof. induction l as [|x l IH]; simpl; [ring|]. rewrite <- IH. ring. Qed.

Lemma Qsum_plus {A} (f g : A -> Q) (l : list A) :
  Qeq (Qsum (map (fun x => f x + g x)%Q l))
      (Qsum (map f l) + Qsum (map g l))%Q.
Proof. induction l as [|x l IH]; simpl; [ring|]. rewrite IH. ring. Qed.

Lemma Qsum_minus {A} (f g : A -> Q) (l : list A) :
  Qeq (Qsum (map (fun x => f x - g x)%Q l))
      (Qsum (map f l) - Qsum (map g l))%Q.
Proof. induction l as [|x l IH]; simpl; [ring|]. rewrite IH. ring. Qed.

(** The order of two summations can be exchanged. *)
Lemma Qsum_swap {A B} (f : A -> B -> Q) (l1 : list A) (l2 : list B) :
  Qeq (Qsum (map (fun x => Qsum (map (fun y => f x y) l2)) l1))
      (Qsum (map (fun y => Qsum (map (fun x => f x y) l1)) l2)).
Proof.
  induction l1 as [|x l1 IH]; simpl.
  - symmetry. by apply Qsum_zero.
  - rewrite IH. symmetry. apply (Qsum_plus (f x)).
Qed.

(** A sum over the indices below [N] of terms that are zero outside
    the window from [s] to [s + n] is the sum over the window. *)
Lemma Qsum_window (f : nat -> Q) (s n N : nat) :
  s + n <= N ->
  Qeq (Qsum (map (fun k => if decide (s <= k /\ k - s < n)%nat
                           then f k else 0%Q)
                 (seq 0 N)))
      (Qsum (map (fun t => f (s + t)) (seq 0 n))).
Proof.
  intros HN. replace N with (s + (n + (N - s - n))) by lia.
  rewrite !seq_app, !map_app, !Qsum_app.
  rewrite (Qsum_zero _ (seq 0 s)).
  2:{ intros k Hk. apply in_seq in Hk. rewrite decide_False by lia.
      reflexivity. }
  rewrite (Qsum_zero _ (seq (0 + s + n) _)).
  2:{ intros k Hk. apply in_seq in Hk. rewrite decide_False by lia.
      reflexivity. }
  replace (seq (0 + s) n) with (map (Nat.add s) (seq 0 n))
    by (rewrite map_fmap, fmap_add_seq; f_equal; lia).
  rewrite map_map.
  rewrite (Qsum_ext _ (fun t => f (s + t)) (seq 0 n)); [ring|].
  intros t Ht. apply in_seq in Ht. rewrite decide_True by lia.
  reflexivity.
Qed.

(** *** Horner's method *)

Lemma Qsum_cons (x : Q) (l : list Q) : Qsum (x :: l) = (x + Qsum l)%Q.
Proof. reflexivity. Qed.

Lemma polyval_from (l : list Q) (x acc : Q) :
  Qeq (fold_left (fun y pv => fadd (fmul y x) pv) l acc)
      (acc * power x (length l)
       + Qsum (map (fun k => default 0 (l !! k) * power x (length l - 1 - k))
                   (seq 0 (length l))))%Q.
Proof.
  revert acc. induction l as [|c l IH]; intros acc.
  - cbn [fold_left length seq map power]. unfold Qsum. simpl fold_right. ring.
  - cbn [fold_left length]. rewrite IH.
    cbn [seq]. rewrite map_cons, Qsum_cons, <- seq_shift, map_map.
    rewrite (Qsum_ext
               (fun k => default 0 ((c :: l) !! S k)
                         * power x (S (length l) - 1 - S k))%Q
               (fun k => default 0 (l !! k) * power x (length l - 1 - k))%Q).
    + replace (S (length l) - 1 - 0) with (length l) by lia.
      cbn [lookup list_lookup default power]. unfold fadd, fmul, Q_Scalar.
      change (id c) with c. ring.
    + intros k Hk. replace (S (length l) - 1 - S k) with (length l - 1 - k)
        by lia. reflexivity.
Qed.

Lemma polyval_sum (l : list Q) (x : Q) :
  Qeq (polyval l x)
      (Qsum (map (fun k => default 0 (l !! k) * power x (length l - 1 - k))%Q
                 (seq 0 (length l)))).
Proof. unfold polyval. rewrite polyval_from. unfold fzero, Q_Scalar. ring. Qed.

(** *** The integrand *)

Lemma lookup_arange_down (N k : nat) :
  k < N -> arange_down N !! k = Some (Z.of_nat (N - k)).
Proof.
  intros Hk. unfold arange_down.
  by rewrite map_fmap, list_lookup_fmap, lookup_seq_lt.
Qed.

Lemma length_arange_down (N : nat) : length (arange_down N) = N.
Proof. unfold arange_down. by rewrite length_map, length_seq. Qed.

(** The value at [x] of the polynomial that the routine evaluates: the
    coefficient [k] of the product, divided by [N - k], is the
    coefficient of [x^(N - k)]. *)
Lemma polyval_integrand (prod : list Q) (N : nat) (x : Q) :
  length prod = N ->
  Qeq (polyval (zip_with (fun c d => fdiv c (fof_Z d)) prod (arange_down N)
                ++ [fzero]) x)
      (Qsum (map (fun k => at0 prod k / inject_Z (Z.of_nat (N - k))
                           * power x (N - k))%Q
                 (seq 0 N))).
Proof.
  intros Hlen. rewrite polyval_sum.
  assert (Hl : length (zip_with (fun c d => fdiv c (fof_Z d)) prod
                         (arange_down N) ++ [fzero]) = S N).
  { rewrite length_app, length_zip_with, length_arange_down, Hlen.
    simpl. lia. }
  rewrite Hl, seq_S, map_app, Qsum_app.
  rewrite (Qsum_ext _
             (fun k => at0 prod k / inject_Z (Z.of_nat (N - k))
                       * power x (N - k))%Q (seq 0 N)).
  - cbn [map]. rewrite lookup_app_r
      by (rewrite length_zip_with, length_arange_down; lia).
    rewrite length_zip_with, length_arange_down, Hlen.
    replace (0 + N - N `min` N) with 0 by lia.
    unfold Qsum. cbn [fold_right lookup list_lookup default].
    change (id (@fzero Q _)) with 0%Q. ring.
  - intros k Hk. apply in_seq in Hk.
    rewrite lookup_app_l
      by (rewrite length_zip_with, length_arange_down; lia).
    rewrite lookup_zip_with, lookup_arange_down by lia.
    destruct (lookup_lt_is_Some_2 prod k) as [c Hc]; [lia|].
    unfold at0. rewrite Hc. cbn [mbind option_bind default].
    replace (S N - 1 - k) with (N - k) by lia. reflexivity.
Qed.

(** *** The product of the transforms *)

(** One term of the cyclic product of two rows of length [n], filled
    with zeros to the length [2 n - 1]: the terms that wrap around are
    zero. *)
Lemma padded_product_term (n : nat) (p q : list Q) (k s : nat) :
  length p = n -> length q = n -> k < n * 2 - 1 -> s < n * 2 - 1 ->
  Qeq (fmul (at0 (take (n * 2 - 1) (p ++ replicate (n * 2 - 1) fzero)) s)
            (at0 (take (n * 2 - 1) (q ++ replicate (n * 2 - 1) fzero))
                 ((k + (n * 2 - 1) - s) mod (n * 2 - 1))))
      (if decide (s <= k /\ k - s < n)%nat
       then at0 p s * at0 q (k - s) else 0)%Q.
Proof.
  intros Hp Hq Hk Hs. set (N := n * 2 - 1) in *.
  rewrite !at0_padded by (lia || (apply Nat.mod_upper_bound; lia)).
  change (@fmul Q _) with Qmult.
  destruct (decide (s <= k)) as [Hsk|Hsk].
  - rewrite cyclic_index_low by lia.
    destruct (decide (k - s < n)) as [Hks|Hks].
    + rewrite decide_True by lia. reflexivity.
    + rewrite decide_False by lia.
      rewrite (at0_beyond q (k - s)) by lia. ring.
  - rewrite decide_False by lia. rewrite cyclic_index_high by lia.
    destruct (decide (s < n)) as [Hsn|Hsn].
    + rewrite (at0_beyond q (k + N - s)) by (subst N; lia). ring.
    + rewrite (at0_beyond p s) by lia. ring.
Qed.

Lemma at0_padded_product (n N : nat) (p q : list Q) (k : nat) :
  N = n * 2 - 1 -> length p = n -> length q = n -> k < N ->
  Qeq (at0 (rfft_mul_irfft N p q) k)
      (Qsum (map (fun s => if decide (s <= k /\ k - s < n)%nat
                           then at0 p s * at0 q (k - s) else 0)%Q
                 (seq 0 N))).
Proof.
  intros -> Hp Hq Hk. unfold rfft_mul_irfft. cbv zeta.
  rewrite at0_map_seq by done. rewrite np_sum_Qsum.
  apply Qsum_ext. intros s Hs. apply in_seq in Hs.
  apply padded_product_term; (done || lia).
Qed.

(** *** The definite integral *)

Lemma monomial_integral_exact (n : nat) (a b : Q)
    (polynomials : list (list Q)) (i j : nat) (p q : list Q) :
  polynomials !! i = Some p -> polynomials !! j = Some q ->
  length p = n -> length q = n ->
  Qeq (monomial_integral n (a, b) polynomials i j)
      (integral_of_product p q a b).
Proof.
  intros Hi Hj Hp Hq. unfold monomial_integral. cbv zeta.
  rewrite Hi, Hj. cbn [default fst snd]. change (id p) with p.
  change (id q) with q. set (N := n * 2 - 1).
  assert (HlenP : length (rfft_mul_irfft N p q) = N).
  { unfold rfft_mul_irfft. by rewrite length_map, length_seq. }
  change (@fsub Q _) with Qminus.
  rewrite !(polyval_integrand _ N) by done.
  rewrite <- Qsum_minus.
  unfold integral_of_product. rewrite Hp, Hq.
  (* the coefficient of the product, as a sum over the first index *)
  rewrite (Qsum_ext _
    (fun k => Qsum (map (fun s =>
       (if decide (s <= k /\ k - s < n)%nat
        then at0 p s * at0 q (k - s)
             * ((power b (N - k) - power a (N - k))
                / inject_Z (Z.of_nat (N - k)))
        else 0)%Q) (seq 0 N))) (seq 0 N)).
  2:{ intros k Hk. apply in_seq in Hk.
      rewrite (at0_padded_product n N p q k) by (done || lia).
      set (g := ((power b (N - k) - power a (N - k))
                 / inject_Z (Z.of_nat (N - k)))%Q).
      transitivity
        (Qsum (map (fun s => if decide (s <= k /\ k - s < n)%nat
                             then at0 p s * at0 q (k - s) else 0)%Q
                   (seq 0 N)) * g)%Q.
      { unfold g. field. intros H0. unfold Qeq in H0. simpl in H0. lia. }
      rewrite Qsum_scale. apply Qsum_ext. intros s _.
      destruct (decide _); [reflexivity|ring]. }
  rewrite Qsum_swap.
  (* the first index is below [n] *)
  assert (HN : N = n + (N - n)) by (subst N; lia).
  rewrite HN at 1. rewrite seq_app, map_app, Qsum_app.
  rewrite (Qsum_zero _ (seq (0 + n) (N - n))).
  2:{ intros s Hs. apply in_seq in Hs. apply Qsum_zero. intros k Hk.
      destruct (decide _); [|reflexivity].
      rewrite (at0_beyond p s) by lia. ring. }
  rewrite Qplus_0_r. apply Qsum_ext. intros s Hs. apply in_seq in Hs.
  rewrite (Qsum_window
             (fun k => at0 p s * at0 q (k - s)
                       * ((power b (N - k) - power a (N - k))
                          / inject_Z (Z.of_nat (N - k))))%Q s n N)
    by (subst N; lia).
  apply Qsum_ext. intros t Ht. apply in_seq in Ht. cbv zeta.
  replace (s + t - s) with t by lia.
  replace (N - (s + t)) with (S (n - 1 - s + (n - 1 - t))) by (subst N; lia).
  reflexivity.
Qed.

(** The matrix of [_monomial_evaluate_constant_linear_diff_op] has
    [n_basis] rows of [n_basis] coefficients. *)
Lemma shape_monomial_polynomials (n_basis : Z) (weights : list Q) :
  shape (_monomial_evaluate_constant_linear_diff_op n_basis weights)
        (Z.to_nat n_basis) (Z.to_nat n_basis).
Proof.
  unfold _monomial_evaluate_constant_linear_diff_op. cbv zeta.
  apply (fold_left_preserves
           (fun M => shape M (Z.to_nat n_basis) (Z.to_nat n_basis))).
  - intros M [i j] HM _. by apply shape_mset.
  - unfold zeros. apply shape_tabulate.
Qed.

(** X6: in exact arithmetic, for a non-empty list of constant weights,
    the monomial routine returns a matrix of size [n_basis] of which
    the entries (i, j) and (j, i), for i <= j, are the integral over
    the domain [[a, b]] of the product of the polynomials in the rows i
    and j of the matrix of [_monomial_evaluate_constant_linear_diff_op]
    (the operator applied to [x^i] and to [x^j]): the sum over the
    pairs of terms of the two polynomials of the integrals of their
    products. *)
Theorem monomial_entries (n : Z) (a b : Q)
    (regularization : Regularization Q) (w0 : Q) (ws : list Q) :
  constant_weights (linear_diff_op regularization) = Some (w0 :: ws) ->
  exists R,
    penalty_matrix_optimized (Monomial n (a, b)) regularization = Matrix R /\
    shape R (Z.to_nat n) (Z.to_nat n) /\
    forall i j : nat, i <= j < Z.to_nat n ->
      exists p q x,
        _monomial_evaluate_constant_linear_diff_op n (w0 :: ws) !! i
          = Some p /\
        _monomial_evaluate_constant_linear_diff_op n (w0 :: ws) !! j
          = Some q /\
        mget R i j = Some x /\ mget R j i = Some x /\
        Qeq x (integral_of_product p q a b).
Proof.
  intros Hw.
  destruct (monomial_entries_computed n (a, b) regularization w0 ws Hw)
    as (R & HR & Hshape & Hentries).
  exists R. split; [done|]. split; [done|]. intros i j Hij.
  destruct (shape_monomial_polynomials n (w0 :: ws)) as [Hlen Hrows].
  destruct (lookup_lt_is_Some_2
              (_monomial_evaluate_constant_linear_diff_op n (w0 :: ws)) i)
    as [p Hp]; [lia|].
  destruct (lookup_lt_is_Some_2
              (_monomial_evaluate_constant_linear_diff_op n (w0 :: ws)) j)
    as [q Hq]; [lia|].
  rewrite Forall_lookup in Hrows.
  destruct (Hentries i j Hij) as [Hx Hy]. cbv zeta in Hx, Hy.
  eexists p, q, _. split; [done|]. split; [done|].
  split; [exact Hx|]. split; [exact Hy|].
  apply (monomial_integral_exact (Z.to_nat n) a b _ i j p q);
    [done|done|by apply (Hrows i)|by apply (Hrows j)].
Qed.

End MonomialIntegrals.

Lemma monomial_entries_witness :
  exists R,
    penalty_matrix_optimized (CF := sample_collaborators)
      (Monomial 3 (0%Q, 1%Q)) (sample_regularization (Some [0%Q; 0%Q; 1%Q]))
      = Matrix R /\
    shape R 3 3 /\
    forall i j : nat, (i <= j < 3)%nat ->
      exists p q x,
        _monomial_evaluate_constant_linear_diff_op 3 [0%Q; 0%Q; 1%Q] !! i
          = Some p /\
        _monomial_evaluate_constant_linear_diff_op 3 [0%Q; 0%Q; 1%Q] !! j
          = Some q /\
        mget R i j = Some x /\ mget R j i = Some x /\
        Qeq x (integral_of_product p q 0%Q 1%Q).
Proof.
  exact (monomial_entries (CF := sample_collaborators) 3 0%Q 1%Q
           (sample_regularization (Some [0%Q; 0%Q; 1%Q])) 0%Q [0%Q; 1%Q]
           eq_refl).
Defined.
